(** * ConfidentialNewsletterLock: subscription ledger and key vault

    A shallow embedding of [hardhat/contracts/ConfidentialNewsletterLock.sol],
    of the user-decryption handshake of [src/lib/fhevm.js] and of the
    content envelope of [src/lib/crypto.ts], with the properties of the
    specification stated over them.

    Conventions.
    - [uint256] values are [N]; Solidity 0.8 arithmetic is checked, so an
      addition that leaves the 256-bit range reverts with [Panic 0x11].
    - A [mapping(address => uint256)] is a [gmap address N] read with
      default 0, as a storage slot that was never written reads 0.
    - A call is a transaction: it either succeeds with a new state and the
      effects it produced (events, ether sent), or reverts with an error and
      leaves the state untouched.
    - An outgoing [call{value: v}("")] is decided by the environment
      ([accepts]); the recipient's code is not part of the contract.
    - Gas is not modelled.
    - A JavaScript string is the list of its UTF-16 code units, a
      [Uint8Array] a list of bytes, and a promise a result or an exception;
      calls of the SDK, the wallet and the clock are events answered by an
      environment, and AES-GCM is an interface the platform implements. *)

From Stdlib Require Import NArith ZArith Lia List Ascii String.
From Stdlib.Strings Require Import Byte.
From stdpp Require Import base option numbers strings gmap sets pretty.
Import ListNotations.

Local Open Scope N_scope.

(** ** Solidity base types *)

Definition address := N.
Definition euint256 := N.          (* bytes32 handle of an encrypted uint256 *)
Definition externalEuint256 := N.  (* bytes32 handle supplied by a user *)
Definition bytes := list N.

Definition uint256_modulus : N := 2 ^ 256.

(** [a + b] of Solidity ^0.8: the sum, or no value when it overflows. *)
Definition checked_add (a b : N) : option N :=
  if a + b <? uint256_modulus then Some (a + b) else None.

(** ** What the contract relies on from its host *)

(** [this] is [address(this)]. [fromExternal user handle proof] is
    [FHE.fromExternal]: it checks the proof of knowledge that comes with a
    user-supplied handle and yields the internal handle, or reverts
    ([None]) when the proof is rejected. The library is a dependency of the
    repository and is taken as given. *)
Class Host := {
  this : address;
  fromExternal : address -> externalEuint256 -> bytes -> option euint256;
}.

(** ** Events, errors, effects *)

Inductive Event :=
| ContentKeySet (setter : address)
| SubscriptionPurchased (subscriber : address) (expirationTimestamp pricePaid : N)
| SubscriptionRenewed (subscriber : address) (newExpirationTimestamp : N)
| KeyAccessGranted (subscriber : address)
| FundsWithdrawn (owner : address) (amount : N)
| SubscriptionParamsUpdated (price duration : N)
| OwnershipTransferred (previousOwner newOwner : address).

Inductive Error :=
| InsufficientPayment (required provided : N)
| ContentKeyAlreadySet
| ContentKeyNotSet
| NoValidSubscription
| NoFundsToWithdraw
| InvalidDuration
| InvalidPrice
| OwnableUnauthorizedAccount (account : address)
| OwnableInvalidOwner (owner : address)
| ReentrancyGuardReentrantCall
| InvalidInputProof
| Panic_overflow
| Error_string (reason : string).

Inductive Effect :=
| Emit (e : Event)
| Sent (to : address) (amount : N).

(** ** Contract state *)

Record State := mkState {
  (* Ownable, ReentrancyGuard *)
  owner : address;
  reentrancyEntered : bool;
  (* ConfidentialNewsletterLock *)
  name : string;
  subscriptionPrice : N;
  subscriptionDuration : N;
  contentKey : euint256;
  contentKeySet : bool;
  expirationTimestamps : gmap address N;
  totalRevenue : N;
  (* kept by the chain for the contract *)
  acl : gset (euint256 * address);   (* FHE access list: (handle, account) *)
  balance : N;                       (* address(this).balance *)
}.

(** [expirationTimestamps[a]] *)
Definition expiration (s : State) (a : address) : N :=
  default 0 (expirationTimestamps s !! a).

Definition set_owner (a : address) (s : State) : State :=
  mkState a (reentrancyEntered s) (name s) (subscriptionPrice s)
    (subscriptionDuration s) (contentKey s) (contentKeySet s)
    (expirationTimestamps s) (totalRevenue s) (acl s) (balance s).

Definition set_reentrancyEntered (b : bool) (s : State) : State :=
  mkState (owner s) b (name s) (subscriptionPrice s)
    (subscriptionDuration s) (contentKey s) (contentKeySet s)
    (expirationTimestamps s) (totalRevenue s) (acl s) (balance s).

Definition set_subscriptionPrice (p : N) (s : State) : State :=
  mkState (owner s) (reentrancyEntered s) (name s) p
    (subscriptionDuration s) (contentKey s) (contentKeySet s)
    (expirationTimestamps s) (totalRevenue s) (acl s) (balance s).

Definition set_subscriptionDuration (d : N) (s : State) : State :=
  mkState (owner s) (reentrancyEntered s) (name s) (subscriptionPrice s)
    d (contentKey s) (contentKeySet s)
    (expirationTimestamps s) (totalRevenue s) (acl s) (balance s).

Definition set_contentKey (k : euint256) (s : State) : State :=
  mkState (owner s) (reentrancyEntered s) (name s) (subscriptionPrice s)
    (subscriptionDuration s) k (contentKeySet s)
    (expirationTimestamps s) (totalRevenue s) (acl s) (balance s).

Definition set_contentKeySet (b : bool) (s : State) : State :=
  mkState (owner s) (reentrancyEntered s) (name s) (subscriptionPrice s)
    (subscriptionDuration s) (contentKey s) b
    (expirationTimestamps s) (totalRevenue s) (acl s) (balance s).

Definition set_expiration (a : address) (t : N) (s : State) : State :=
  mkState (owner s) (reentrancyEntered s) (name s) (subscriptionPrice s)
    (subscriptionDuration s) (contentKey s) (contentKeySet s)
    (<[a := t]> (expirationTimestamps s)) (totalRevenue s) (acl s) (balance s).

Definition set_totalRevenue (r : N) (s : State) : State :=
  mkState (owner s) (reentrancyEntered s) (name s) (subscriptionPrice s)
    (subscriptionDuration s) (contentKey s) (contentKeySet s)
    (expirationTimestamps s) r (acl s) (balance s).

Definition set_acl (g : gset (euint256 * address)) (s : State) : State :=
  mkState (owner s) (reentrancyEntered s) (name s) (subscriptionPrice s)
    (subscriptionDuration s) (contentKey s) (contentKeySet s)
    (expirationTimestamps s) (totalRevenue s) g (balance s).

Definition set_balance (b : N) (s : State) : State :=
  mkState (owner s) (reentrancyEntered s) (name s) (subscriptionPrice s)
    (subscriptionDuration s) (contentKey s) (contentKeySet s)
    (expirationTimestamps s) (totalRevenue s) (acl s) b.

(** ** Transactions: state, effects and revert *)

Inductive Result (A : Type) :=
| Success (a : A) (s : State) (fx : list Effect)
| Revert (e : Error).
Arguments Success {A} a s fx.
Arguments Revert {A} e.

Definition M (A : Type) := State -> Result A.

Definition ret {A} (a : A) : M A := fun s => Success a s [].

Definition bind {A B} (m : M A) (f : A -> M B) : M B := fun s =>
  match m s with
  | Revert e => Revert e
  | Success a s1 fx1 =>
      match f a s1 with
      | Revert e => Revert e
      | Success b s2 fx2 => Success b s2 (fx1 ++ fx2)
      end
  end.

Definition revert {A} (e : Error) : M A := fun _ => Revert e.
Definition get : M State := fun s => Success s s [].
Definition modify (f : State -> State) : M unit := fun s => Success tt (f s) [].
Definition emit (e : Event) : M unit := fun s => Success tt s [Emit e].

#[global] Instance M_ret : MRet M := @ret.
#[global] Instance M_bind : MBind M := fun A B f m => bind m f.

(** [require(cond, reason)] *)
Definition require (cond : bool) (reason : string) : M unit :=
  if cond then ret tt else revert (Error_string reason).

(** A checked addition inside a transaction. *)
Definition add_uint256 (a b : N) : M N :=
  match checked_add a b with
  | Some c => ret c
  | None => revert Panic_overflow
  end.

(** The state a call leaves behind: a revert rolls everything back. *)
Definition state_after {A} (s : State) (r : Result A) : State :=
  match r with
  | Success _ s' _ => s'
  | Revert _ => s
  end.

Definition effects_of {A} (r : Result A) : list Effect :=
  match r with
  | Success _ _ fx => fx
  | Revert _ => []
  end.

(** What a call sees of its block and of the accounts it pays. *)
Record Env := mkEnv {
  timestamp : N;                        (* block.timestamp *)
  accepts : address -> N -> bool;       (* does [to.call{value: v}("")] succeed *)
}.

(** [payable(to).call{value: amount}("")]: moves [amount] out of the
    contract's balance when the contract holds it and the recipient
    accepts it; tells whether it did. *)
Definition call_value (env : Env) (to : address) (amount : N) : M bool := fun s =>
  if (amount <=? balance s) && accepts env to amount
  then Success true (set_balance (balance s - amount) s) [Sent to amount]
  else Success false s [].

(** Ether that comes with a call to a payable function is credited before
    the function runs. *)
Definition receive_value (value : N) : M unit :=
  modify (fun s => set_balance (balance s + value) s).

(** ** Library modifiers *)

(** [onlyOwner] (OpenZeppelin Ownable). *)
Definition onlyOwner {A} (sender : address) (body : M A) : M A :=
  s ← get;
  if decide (owner s = sender) then body
  else revert (OwnableUnauthorizedAccount sender).

(** [nonReentrant] (OpenZeppelin ReentrancyGuard): refuses to start while a
    guarded function of the contract is running, and marks the contract as
    entered for the time of the body. *)
Definition nonReentrant {A} (body : M A) : M A :=
  s ← get;
  if reentrancyEntered s then revert ReentrancyGuardReentrantCall
  else
    modify (set_reentrancyEntered true);;
    a ← body;
    modify (set_reentrancyEntered false);;
    ret a.

(** [FHE.allow(handle, account)]: adds the pair to the access list.
    Allowing twice is allowing once. The contract may allow others on the
    key because [setContentKey] first allows the contract itself. *)
Definition allow (handle : euint256) (account : address) : M unit :=
  modify (fun s => set_acl ({[ (handle, account) ]} ∪ acl s) s).

Section Contract.
Context `{Host}.

(** ** Constructor *)

(** [_funds] is what the contract's address already holds when the code is
    deployed there. The [Ownable(msg.sender)] base constructor runs first. *)
Definition constructor (sender : address) (_funds : N)
    (_name : string) (_subscriptionPrice _subscriptionDuration : N)
  : Error + State :=
  if decide (sender = 0) then inl (OwnableInvalidOwner 0)
  else if _subscriptionDuration =? 0 then inl InvalidDuration
  else inr {|
    owner := sender;
    reentrancyEntered := false;
    name := _name;
    subscriptionPrice := _subscriptionPrice;
    subscriptionDuration := _subscriptionDuration;
    contentKey := 0;
    contentKeySet := false;
    expirationTimestamps := ∅;
    totalRevenue := 0;
    acl := ∅;
    balance := _funds;
  |}.

(** ** Publisher functions *)

Definition setContentKey (sender : address)
    (_encryptedKey : externalEuint256) (_inputProof : bytes) : M unit :=
  onlyOwner sender (
    s ← get;
    if contentKeySet s then revert ContentKeyAlreadySet
    else
      match fromExternal sender _encryptedKey _inputProof with
      | None => revert InvalidInputProof
      | Some k =>
          modify (set_contentKey k);;
          allow k this;;
          allow k sender;;
          modify (set_contentKeySet true);;
          emit (ContentKeySet sender)
      end).

Definition updateSubscriptionParams (sender : address)
    (_newPrice _newDuration : N) : M unit :=
  onlyOwner sender (
    if _newDuration =? 0 then revert InvalidDuration
    else
      modify (set_subscriptionPrice _newPrice);;
      modify (set_subscriptionDuration _newDuration);;
      emit (SubscriptionParamsUpdated _newPrice _newDuration)).

Definition withdraw (env : Env) (sender : address) : M unit :=
  onlyOwner sender (nonReentrant (
    s ← get;
    let balance := balance s in
    if balance =? 0 then revert NoFundsToWithdraw
    else
      success ← call_value env (owner s) balance;
      require success "Transfer failed";;
      emit (FundsWithdrawn (owner s) balance))).

(** ** Subscriptions *)

Definition _createOrExtendSubscription (env : Env)
    (_subscriber : address) (_duration _pricePaid : N) : M unit :=
  s ← get;
  let expirationTimestamp := expiration s _subscriber in
  (if expirationTimestamp =? 0 then
     (* New subscription *)
     expirationTimestamp ← add_uint256 (timestamp env) _duration;
     modify (set_expiration _subscriber expirationTimestamp);;
     emit (SubscriptionPurchased _subscriber expirationTimestamp _pricePaid)
   else
     (* Renewal: extend from the current expiration or now, whichever is later *)
     let baseTime :=
       if timestamp env <? expirationTimestamp
       then expirationTimestamp else timestamp env in
     expirationTimestamp ← add_uint256 baseTime _duration;
     modify (set_expiration _subscriber expirationTimestamp);;
     emit (SubscriptionRenewed _subscriber expirationTimestamp));;
  allow (contentKey s) _subscriber;;
  s ← get;
  totalRevenue ← add_uint256 (totalRevenue s) _pricePaid;
  modify (set_totalRevenue totalRevenue);;
  emit (KeyAccessGranted _subscriber).

Definition grantSubscription (env : Env) (sender : address)
    (_subscriber : address) (_duration : N) : M unit :=
  onlyOwner sender (
    s ← get;
    if negb (contentKeySet s) then revert ContentKeyNotSet
    else _createOrExtendSubscription env _subscriber _duration 0).

Definition subscribe (env : Env) (sender : address) (value : N) : M unit :=
  receive_value value;;
  nonReentrant (
    s ← get;
    if negb (contentKeySet s) then revert ContentKeyNotSet
    else if value <? subscriptionPrice s
    then revert (InsufficientPayment (subscriptionPrice s) value)
    else
      _createOrExtendSubscription env sender (subscriptionDuration s) value;;
      (* Refund excess payment *)
      s ← get;
      if subscriptionPrice s <? value then
        success ← call_value env sender (value - subscriptionPrice s);
        require success "Refund failed"
      else ret tt).

(** ** Ownable's own entry points, which the contract inherits *)

Definition transferOwnership (sender newOwner : address) : M unit :=
  onlyOwner sender (
    if decide (newOwner = 0) then revert (OwnableInvalidOwner 0)
    else
      s ← get;
      modify (set_owner newOwner);;
      emit (OwnershipTransferred (owner s) newOwner)).

Definition renounceOwnership (sender : address) : M unit :=
  onlyOwner sender (
    s ← get;
    modify (set_owner 0);;
    emit (OwnershipTransferred (owner s) 0)).

(** ** View functions *)

Definition _isSubscriptionValid (env : Env) (s : State) (_subscriber : address) : bool :=
  timestamp env <? expiration s _subscriber.

Definition getContentKey (env : Env) (sender : address) (s : State)
  : Error + euint256 :=
  if negb (_isSubscriptionValid env s sender) && negb (bool_decide (sender = owner s))
  then inl NoValidSubscription
  else inr (contentKey s).

Definition getSubscriptionDetails (env : Env) (s : State) (_subscriber : address)
  : N * bool :=
  let expirationTimestamp := expiration s _subscriber in
  let isValid := _isSubscriptionValid env s _subscriber in
  (expirationTimestamp, isValid).

(** ** The contract as a transition system *)

(** The external functions that write. Only [subscribe] is payable, so
    only [Subscribe] carries ether. *)
Inductive Call :=
| SetContentKey (_encryptedKey : externalEuint256) (_inputProof : bytes)
| UpdateSubscriptionParams (_newPrice _newDuration : N)
| Withdraw
| GrantSubscription (_subscriber : address) (_duration : N)
| Subscribe (value : N)
| TransferOwnership (newOwner : address)
| RenounceOwnership.

Definition exec (env : Env) (sender : address) (c : Call) : M unit :=
  match c with
  | SetContentKey k p => setContentKey sender k p
  | UpdateSubscriptionParams p d => updateSubscriptionParams sender p d
  | Withdraw => withdraw env sender
  | GrantSubscription a d => grantSubscription env sender a d
  | Subscribe v => subscribe env sender v
  | TransferOwnership a => transferOwnership sender a
  | RenounceOwnership => renounceOwnership sender
  end.

(** A transaction: its block and payees, its sender, the call. *)
Record Tx := mkTx { tx_env : Env; tx_sender : address; tx_call : Call }.

Definition step (s : State) (t : Tx) : State :=
  state_after s (exec (tx_env t) (tx_sender t) (tx_call t) s).

(** The state after a sequence of transactions, reverted ones included. *)
Definition run (s : State) (ts : list Tx) : State := fold_left step ts s.

(** States of a deployed contract between transactions. Ether can also
    reach the contract without any of its functions running
    ([reach_funded]). *)
Inductive reachable : State -> Prop :=
| reach_deployed sender funds nm price duration s :
    constructor sender funds nm price duration = inr s -> reachable s
| reach_step s t : reachable s -> reachable (step s t)
| reach_funded s amount :
    reachable s -> reachable (set_balance (balance s + amount) s).

End Contract.

(** ** Reading a call's outcome *)

(** The ether a call sent out, in order. *)
Definition transfers (fx : list Effect) : list (address * N) :=
  omap (fun e => match e with Sent to v => Some (to, v) | Emit _ => None end) fx.

(** The identity a call extends and the duration it grants: [subscribe]
    extends its sender by the stored duration, [grantSubscription] extends
    the address it names by the duration it names. *)
Definition grants (s : State) (sender : address) (c : Call)
  : option (address * N) :=
  match c with
  | Subscribe _ => Some (sender, subscriptionDuration s)
  | GrantSubscription a d => Some (a, d)
  | _ => None
  end.

(** The state [_createOrExtendSubscription] writes: the new expiration,
    the access-list entry, the revenue counter. *)
Definition extended (a : address) (e r : N) (s : State) : State :=
  set_totalRevenue r
    (set_acl ({[ (contentKey s, a) ]} ∪ acl s) (set_expiration a e s)).

(** What holds of the contract between transactions: the guard is free,
    the duration is positive, and as long as the key has not been set the
    ledger is as the constructor left it. *)
Record inv (s : State) : Prop := {
  inv_guard : reentrancyEntered s = false;
  inv_duration : subscriptionDuration s ≠ 0;
  inv_no_key :
    contentKeySet s = false ->
    expirationTimestamps s = ∅ /\ totalRevenue s = 0 /\
    contentKey s = 0 /\ acl s = ∅;
}.

(** The ether a call brings in: only [subscribe] is payable. *)
Definition value_of (c : Call) : N :=
  match c with
  | Subscribe v => v
  | _ => 0
  end.

(** The ether a call sent out, in total. *)
Definition sent_total (fx : list Effect) : N :=
  foldr (fun tr acc => tr.2 + acc) 0 (transfers fx).

(** The events a call emitted, in order. *)
Definition events (fx : list Effect) : list Event :=
  omap (fun e => match e with Emit ev => Some ev | Sent _ _ => None end) fx.

(** Every stored counter fits in 256 bits. *)
Definition uint256_bounded (s : State) : Prop :=
  totalRevenue s < uint256_modulus /\
  forall a, expiration s a < uint256_modulus.

(** ** A deployment to compute with

    The host of the repository's tests: the contract sits at address 1000
    and the mock coprocessor accepts every input proof, handing the handle
    back. The publisher deploys at 100 wei for 30 days, as in the
    specification's scenario. *)

Definition test_host : Host :=
  {| this := 1000; fromExternal := fun _ h _ => Some h |}.

Definition publisher : address := 1.
Definition alice : address := 2.
Definition bob : address := 3.

Definition at_time (t : N) : Env := mkEnv t (fun _ _ => true).

Definition deployed : State := {|
  owner := publisher;
  reentrancyEntered := false;
  name := "Newsletter";
  subscriptionPrice := 100;
  subscriptionDuration := 2592000;
  contentKey := 0;
  contentKeySet := false;
  expirationTimestamps := ∅;
  totalRevenue := 0;
  acl := ∅;
  balance := 0;
|}.

Definition set_key_tx : Tx :=
  mkTx (at_time 1000) publisher (SetContentKey 77 []).

Definition with_key : State := @step test_host deployed set_key_tx.

(** Alice pays 150 wei for the 100 wei subscription at time 5000. *)
Definition overpaid_tx : Tx := mkTx (at_time 5000) alice (Subscribe 150).

Definition alice_joined : State := @step test_host with_key overpaid_tx.

(** A block at time 5000 in which no account accepts ether. *)
Definition refusing : Env := mkEnv 5000 (fun _ _ => false).

(** * The user-decryption handshake ([src/lib/fhevm.js])

    [requestUserDecryption] and [decryptValue] are straight-line
    asynchronous code over the relayer SDK instance, the wallet signer and
    the clock. Each of those calls is an event whose answer comes from the
    environment; a rejected promise or a thrown value is an exception. The
    [signer] argument of the source is the wallet of the environment, which
    answers [SignTypedData] and [GetAddress]. Console output is left out. *)

Module Handshake.

(** A thrown value: an [Error] with its message, or anything else. *)
Inductive exn :=
| JsError (message : string)
| Thrown.

Record Keypair := mkKeypair { publicKey : string; privateKey : string }.

(** What [createEIP712] returns, as far as the code reads it. *)
Record EIP712 := mkEIP712 {
  domain : string;
  types_UserDecryptRequestVerification : string;
  message : string;
}.

Record HandleContractPair := mkPair { handle : string; contractAddress : string }.

(** [Number(x)], kept symbolic: [x] is the looked-up clear value, or
    [undefined]. *)
Inductive JsNumber := Number (x : option N).

Inductive sdkE : Type -> Type :=
| GetFheInstance : sdkE bool                      (* is [fheInstance] set *)
| GenerateKeypair : sdkE (exn + Keypair)          (* instance.generateKeypair() *)
| DateNow : sdkE N                                (* Date.now(), milliseconds *)
| CreateEIP712 (publicKey : string) (contractAddresses : list string)
    (startTimeStamp durationDays : string) : sdkE (exn + EIP712)
| SignTypedData (domain types message : string) : sdkE (exn + string)
| GetAddress : sdkE (exn + string)                (* signer.getAddress() *)
| UserDecrypt (handleContractPairs : list HandleContractPair)
    (privateKey publicKey signature : string) (contractAddresses : list string)
    (userAddress startTimeStamp durationDays : string)
  : sdkE (exn + gmap string N).

Inductive Prog (R : Type) : Type :=
| Ret (r : R)
| Throw (e : exn)
| Vis {X : Type} (e : sdkE X) (k : X -> Prog R).
Arguments Ret {R} r.
Arguments Throw {R} e.
Arguments Vis {R X} e k.

Fixpoint pbind {A B} (m : Prog A) (f : A -> Prog B) : Prog B :=
  match m with
  | Ret a => f a
  | Throw e => Throw e
  | Vis e k => Vis e (fun x => pbind (k x) f)
  end.

(** [try { m } catch (error) { h error }] *)
Fixpoint try_catch {A} (m : Prog A) (h : exn -> Prog A) : Prog A :=
  match m with
  | Ret a => Ret a
  | Throw e => h e
  | Vis e k => Vis e (fun x => try_catch (k x) h)
  end.

#[global] Instance Prog_ret : MRet Prog := @Ret.
#[global] Instance Prog_bind : MBind Prog := fun A B f m => pbind m f.

(** A call that cannot fail, and one that returns or throws. *)
Definition ask {X} (e : sdkE X) : Prog X := Vis e Ret.
Definition call {X} (e : sdkE (exn + X)) : Prog X :=
  Vis e (fun r => match r with inl ex => Throw ex | inr x => Ret x end).

(** [s.replace("0x", "")]: drops the first occurrence of ["0x"]. *)
Fixpoint replace_0x (s : string) : string :=
  match s with
  | String "0"%char (String "x"%char rest) => rest
  | String c rest => String c (replace_0x rest)
  | EmptyString => EmptyString
  end.

(** [s.includes(pat)] *)
Definition includes (s pat : string) : bool :=
  bool_decide (is_Some (String.index 0 pat s)).

(** [Math.floor(Date.now() / 1000).toString()]. [Date.now()] is a whole
    number of milliseconds below 2^53, for which the floating-point
    quotient floors to the integer quotient, and the decimal digits of a
    whole number of that size are what [toString] prints. *)
Definition startTimeStamp_of (now : N) : string := pretty (now / 1000).

Definition requestUserDecryption (contractAddress ciphertextHandle : string)
  : Prog (option N) :=
  relayer ← ask GetFheInstance;
  if negb relayer then Throw (JsError "FHEVM not initialized")
  else
    keypair ← call GenerateKeypair;
    let handleContractPairs := [mkPair ciphertextHandle contractAddress] in
    now ← ask DateNow;
    let startTimeStamp := startTimeStamp_of now in
    let durationDays := "10" in
    let contractAddresses := [contractAddress] in
    eip712 ← call (CreateEIP712 (publicKey keypair) contractAddresses
                     startTimeStamp durationDays);
    signature ← call (SignTypedData (domain eip712)
                        (types_UserDecryptRequestVerification eip712)
                        (message eip712));
    userAddress ← call GetAddress;
    result ← call (UserDecrypt handleContractPairs (privateKey keypair)
                     (publicKey keypair) (replace_0x signature)
                     contractAddresses userAddress startTimeStamp durationDays);
    mret (result !! ciphertextHandle).

Definition decryptValue (encryptedBytes contractAddress : string)
  : Prog JsNumber :=
  fhe ← ask GetFheInstance;
  if negb fhe
  then Throw (JsError
    "FHE instance not initialized. Call initializeFheInstance() first.")
  else
    try_catch (
      keypair ← call GenerateKeypair;
      let handleContractPairs := [mkPair encryptedBytes contractAddress] in
      now ← ask DateNow;
      let startTimeStamp := startTimeStamp_of now in
      let durationDays := "10" in
      let contractAddresses := [contractAddress] in
      eip712 ← call (CreateEIP712 (publicKey keypair) contractAddresses
                       startTimeStamp durationDays);
      signature ← call (SignTypedData (domain eip712)
                          (types_UserDecryptRequestVerification eip712)
                          (message eip712));
      userAddress ← call GetAddress;
      result ← call (UserDecrypt handleContractPairs (privateKey keypair)
                       (publicKey keypair) (replace_0x signature)
                       contractAddresses userAddress startTimeStamp durationDays);
      mret (Number (result !! encryptedBytes)))
    (fun error =>
      match error with
      | JsError msg =>
          if includes msg "Failed to fetch" || includes msg "NetworkError"
          then Throw (JsError
            "Decryption service is temporarily unavailable. Please try again later.")
          else Throw error
      | Thrown => Throw error
      end).

(** ** Running a request against an environment *)

(** One call and the answer it got. *)
Inductive Obs :=
| ObsInstance (present : bool)
| ObsKeypair (answer : exn + Keypair)
| ObsNow (now : N)
| ObsCreateEIP712 (publicKey : string) (contractAddresses : list string)
    (startTimeStamp durationDays : string) (answer : exn + EIP712)
| ObsSign (domain types message : string) (answer : exn + string)
| ObsAddress (answer : exn + string)
| ObsUserDecrypt (handleContractPairs : list HandleContractPair)
    (privateKey publicKey signature : string) (contractAddresses : list string)
    (userAddress startTimeStamp durationDays : string)
    (answer : exn + gmap string N).

Definition observe {X} (e : sdkE X) : X -> Obs :=
  match e with
  | GetFheInstance => ObsInstance
  | GenerateKeypair => ObsKeypair
  | DateNow => ObsNow
  | CreateEIP712 pk cs st dd => ObsCreateEIP712 pk cs st dd
  | SignTypedData d t m => ObsSign d t m
  | GetAddress => ObsAddress
  | UserDecrypt hs sk pk sg cs ua st dd => ObsUserDecrypt hs sk pk sg cs ua st dd
  end.

(** The environment answers every call from its own state [W]. *)
Definition World (W : Type) := forall X, sdkE X -> W -> X * W.

Fixpoint interact {W R} (env : World W) (p : Prog R) (w : W)
  : list Obs * (exn + R) * W :=
  match p with
  | Ret r => ([], inr r, w)
  | Throw e => ([], inl e, w)
  | Vis e k =>
      let (x, w1) := env _ e w in
      let '(tr, r, w2) := interact env (k x) w1 in
      (observe e x :: tr, r, w2)
  end.

Definition trace {W R} (env : World W) (p : Prog R) (w : W) : list Obs :=
  (interact env p w).1.1.

(** The keypairs a run obtained, and the clock readings it took. *)
Definition generated (tr : list Obs) : list Keypair :=
  omap (fun o => match o with ObsKeypair (inr kp) => Some kp | _ => None end) tr.

Definition clock_reads (tr : list Obs) : list N :=
  omap (fun o => match o with ObsNow t => Some t | _ => None end) tr.

(** Every call of [generateKeypair] a run made, with its answer. *)
Definition keypair_calls (tr : list Obs) : list (exn + Keypair) :=
  omap (fun o => match o with ObsKeypair a => Some a | _ => None end) tr.

(** The calls of one request, given the answer each call gets: the code
    stops at the first call that throws. *)
Definition request_trace (c h : string) (present : bool)
    (ka : exn + Keypair) (now : N) (ea : exn + EIP712)
    (sa ua : exn + string) (ra : exn + gmap string N) : list Obs :=
  ObsInstance present ::
  if present then
    ObsKeypair ka ::
    match ka with
    | inl _ => []
    | inr kp =>
        ObsNow now ::
        ObsCreateEIP712 (publicKey kp) [c] (startTimeStamp_of now) "10" ea ::
        match ea with
        | inl _ => []
        | inr eip =>
            ObsSign (domain eip) (types_UserDecryptRequestVerification eip)
              (message eip) sa ::
            match sa with
            | inl _ => []
            | inr sig =>
                ObsAddress ua ::
                match ua with
                | inl _ => []
                | inr user =>
                    [ObsUserDecrypt [mkPair h c] (privateKey kp) (publicKey kp)
                       (replace_0x sig) [c] user (startTimeStamp_of now) "10" ra]
                end
            end
        end
    end
  else [].

(** What a run for handle [h] of contract [c] owes to be a well-formed
    decryption request:
    - with an SDK instance at hand, [generateKeypair] is called once;
    - the statement is created right after that keypair and one reading
      of the clock, for that public key, the contract, the reading in
      whole seconds as start and ["10"] as duration in days;
    - what is signed is the statement that was created;
    - what is submitted carries that keypair, the signature without its
      ["0x"], the signer's address, and the same start and duration. *)
Definition well_formed_request (c h : string) (tr : list Obs) : Prop :=
  (ObsInstance true ∈ tr -> length (keypair_calls tr) = 1%nat) /\
  (forall pk cs st dd ans,
     ObsCreateEIP712 pk cs st dd ans ∈ tr ->
     exists kp now rest,
       tr = ObsInstance true :: ObsKeypair (inr kp) :: ObsNow now
              :: ObsCreateEIP712 pk cs st dd ans :: rest /\
       keypair_calls tr = [inr kp] /\ clock_reads tr = [now] /\
       pk = publicKey kp /\ cs = [c] /\
       st = startTimeStamp_of now /\ dd = "10") /\
  (forall d ty m ans,
     ObsSign d ty m ans ∈ tr ->
     exists pk cs st dd eip,
       ObsCreateEIP712 pk cs st dd (inr eip) ∈ tr /\
       d = domain eip /\ ty = types_UserDecryptRequestVerification eip /\
       m = message eip) /\
  (forall hs sk pk sg cs ua st dd ans,
     ObsUserDecrypt hs sk pk sg cs ua st dd ans ∈ tr ->
     exists kp now d ty m sig,
       keypair_calls tr = [inr kp] /\ clock_reads tr = [now] /\
       ObsSign d ty m (inr sig) ∈ tr /\ ObsAddress (inr ua) ∈ tr /\
       hs = [mkPair h c] /\ sk = privateKey kp /\ pk = publicKey kp /\
       sg = replace_0x sig /\ cs = [c] /\
       st = startTimeStamp_of now /\ dd = "10").

(** ** An environment to compute with

    Its state counts the keypairs handed out, so that each call of
    [generateKeypair] yields a new one; the clock stands at
    1700000000123 ms; the wallet signs everything and the relayer reveals
    the value 42 for whatever handle is asked first. *)
Definition test_world : World N := fun X e =>
  match e in sdkE X return N -> X * N with
  | GetFheInstance => fun w => (true, w)
  | GenerateKeypair => fun w =>
      (inr (mkKeypair ("pk" +:+ pretty w) ("sk" +:+ pretty w)), w + 1)
  | DateNow => fun w => (1700000000123, w)
  | CreateEIP712 pk cs st dd => fun w =>
      (inr (mkEIP712 "domain" "types" (pk +:+ "@" +:+ st +:+ "+" +:+ dd)), w)
  | SignTypedData d t m => fun w => (inr ("0xsigned:" +:+ m), w)
  | GetAddress => fun w => (inr "0xA11CE", w)
  | UserDecrypt hs sk pk sg cs ua st dd => fun w =>
      (inr (match hs with
            | p :: _ => {[ handle p := 42 ]}
            | [] => ∅
            end), w)
  end.

End Handshake.

(** ** How a request ends *)

Module HandshakeOutcome.
Import Handshake.

(** What a run ends with. *)
Definition outcome {W R} (env : World W) (p : Prog R) (w : W) : exn + R :=
  (interact env p w).1.2.

(** The exception a call answered with, if it did. *)
Definition failure (o : Obs) : option exn :=
  match o with
  | ObsKeypair (inl e) => Some e
  | ObsCreateEIP712 _ _ _ _ (inl e) => Some e
  | ObsSign _ _ _ (inl e) => Some e
  | ObsAddress (inl e) => Some e
  | ObsUserDecrypt _ _ _ _ _ _ _ _ (inl e) => Some e
  | _ => None
  end.

(** The clear values the relayer answered with, if it did. *)
Definition revealed (o : Obs) : option (gmap string N) :=
  match o with
  | ObsUserDecrypt _ _ _ _ _ _ _ _ (inr res) => Some res
  | _ => None
  end.

(** How [decryptValue] reports a failure: one whose message mentions a
    failed fetch or a network error becomes "service unavailable", any
    other is passed on. *)
Definition reported (e : exn) : exn :=
  match e with
  | JsError msg =>
      if includes msg "Failed to fetch" || includes msg "NetworkError"
      then JsError
        "Decryption service is temporarily unavailable. Please try again later."
      else e
  | Thrown => e
  end.

(** A world in which the SDK was never initialised. *)
Definition bare_world : World N := fun X e =>
  match e in sdkE X return N -> X * N with
  | GetFheInstance => fun w => (false, w)
  | e' => test_world _ e'
  end.

(** A run is a request for handle [h] of contract [c], made with or
    without an SDK instance at hand: its calls are those of
    [request_trace], in that order and with those arguments, up to the
    first call that throws. With an instance at hand the keypair is
    asked for, and each call that succeeds is followed by the next. *)
Definition issues_request (c h : string) (present : bool) (tr : list Obs)
  : Prop :=
  exists ka now ea sa ua ra,
    tr = request_trace c h present ka now ea sa ua ra.

(** A run is a request that went all the way: a keypair was generated,
    the clock read, a statement created for that public key, the
    contract, that reading in whole seconds and ["10"] days, that
    statement signed, and the whole submitted to the relayer, which
    answered [res]. *)
Definition completed_request (c h : string) (res : gmap string N)
    (tr : list Obs) : Prop :=
  exists kp now eip sig user,
    tr = [ObsInstance true; ObsKeypair (inr kp); ObsNow now;
          ObsCreateEIP712 (publicKey kp) [c] (startTimeStamp_of now) "10"
            (inr eip);
          ObsSign (domain eip) (types_UserDecryptRequestVerification eip)
            (message eip) (inr sig);
          ObsAddress (inr user);
          ObsUserDecrypt [mkPair h c] (privateKey kp) (publicKey kp)
            (replace_0x sig) [c] user (startTimeStamp_of now) "10" (inr res)].

End HandshakeOutcome.

(** * The content envelope ([src/lib/crypto.ts])

    A JavaScript string is its sequence of UTF-16 code units, a
    [Uint8Array] is a list of bytes. [parseInt], [btoa], [atob],
    [TextEncoder] and [TextDecoder] are functions of the platform and
    follow their standards (ECMAScript, HTML, Infra and Encoding); AES-GCM
    and the random generator are an interface the platform implements. *)

Module Crypto.

Abbreviation jsstring := (list N).

(** A string literal of the source, as code units. *)
Definition js (s : string) : jsstring :=
  map (fun c => N_of_ascii c) (list_ascii_of_string s).

(** Storing a number in a [Uint8Array]: [NaN] is stored as 0, an integer
    modulo 256. *)
Definition to_uint8 (v : option Z) : byte :=
  match v with
  | None => x00
  | Some z => default x00 (Byte.of_N (Z.to_N (z mod 256)))
  end.

(** ** [parseInt(s, 16)] *)

(** White space and line terminators of ECMAScript. *)
Definition white_space : list N :=
  [9; 10; 11; 12; 13; 32; 160; 5760; 8192; 8193; 8194; 8195; 8196; 8197;
   8198; 8199; 8200; 8201; 8202; 8232; 8233; 8239; 8287; 12288; 65279].

Definition is_white_space (c : N) : bool := existsb (N.eqb c) white_space.

Fixpoint trim_start (s : jsstring) : jsstring :=
  match s with
  | c :: rest => if is_white_space c then trim_start rest else s
  | [] => []
  end.

(** The value of a hexadecimal digit, in either case. *)
Definition hex_value (c : N) : option N :=
  if (48 <=? c) && (c <=? 57) then Some (c - 48)
  else if (97 <=? c) && (c <=? 102) then Some (c - 87)
  else if (65 <=? c) && (c <=? 70) then Some (c - 55)
  else None.

(** The digits a string starts with. *)
Fixpoint leading_digits (s : jsstring) : list N :=
  match s with
  | c :: rest =>
      match hex_value c with
      | Some v => v :: leading_digits rest
      | None => []
      end
  | [] => []
  end.

(** The number a sequence of digits writes. *)
Definition digits_value (ds : list N) : N :=
  fold_left (fun acc d => 16 * acc + d) ds 0.

(** [parseInt(s, 16)]: skips leading white space, takes a sign, skips a
    ["0x"] or ["0X"], and reads digits as far as they go; [None] is
    [NaN]. *)
Definition parseInt16 (s : jsstring) : option Z :=
  let s1 := trim_start s in
  let '(sign, s2) :=
    match s1 with
    | c :: rest =>
        if c =? 45 then ((-1)%Z, rest)
        else if c =? 43 then (1%Z, rest)
        else (1%Z, s1)
    | [] => (1%Z, s1)
    end in
  let s3 :=
    match s2 with
    | c0 :: c1 :: rest =>
        if (c0 =? 48) && ((c1 =? 120) || (c1 =? 88)) then rest else s2
    | _ => s2
    end in
  match leading_digits s3 with
  | [] => None
  | ds => Some (sign * Z.of_N (digits_value ds))%Z
  end.

(** ** String methods *)

Definition startsWith (s p : jsstring) : bool :=
  bool_decide (take (length p) s = p).

(** [s.substr(start, len)] *)
Definition substr (s : jsstring) (start len : nat) : jsstring :=
  take len (drop start s).

(** ** [hexToBytes] *)

Definition hexToBytes (hex : jsstring) : list byte :=
  let cleanHex := if startsWith hex (js "0x") then drop 2 hex else hex in
  map (fun i => to_uint8 (parseInt16 (substr cleanHex (i * 2) 2)))
    (seq 0 (length cleanHex / 2)).

(** ** Base64 of the platform *)

(** The character of a 6-bit value in the base64 alphabet. *)
Definition base64_char (v : N) : N :=
  if v <? 26 then 65 + v
  else if v <? 52 then 97 + (v - 26)
  else if v <? 62 then 48 + (v - 52)
  else if v =? 62 then 43
  else 47.

(** The 6-bit value of a character of the alphabet. *)
Definition base64_value (c : N) : option N :=
  if (65 <=? c) && (c <=? 90) then Some (c - 65)
  else if (97 <=? c) && (c <=? 122) then Some (c - 97 + 26)
  else if (48 <=? c) && (c <=? 57) then Some (c - 48 + 52)
  else if c =? 43 then Some 62
  else if c =? 47 then Some 63
  else None.

(** Base64 of a byte sequence, with padding. *)
Fixpoint base64_encode (bs : list N) : jsstring :=
  match bs with
  | a :: b :: c :: rest =>
      base64_char (a / 4) :: base64_char (a mod 4 * 16 + b / 16)
      :: base64_char (b mod 16 * 4 + c / 64) :: base64_char (c mod 64)
      :: base64_encode rest
  | [a; b] =>
      [base64_char (a / 4); base64_char (a mod 4 * 16 + b / 16);
       base64_char (b mod 16 * 4); 61]
  | [a] => [base64_char (a / 4); base64_char (a mod 4 * 16); 61; 61]
  | [] => []
  end.

(** [btoa(data)]: throws when [data] has a code unit above 255, else
    encodes its code units as bytes. *)
Definition btoa (data : jsstring) : option jsstring :=
  if forallb (fun c => c <=? 255) data then Some (base64_encode data)
  else None.

Definition is_ascii_whitespace (c : N) : bool :=
  existsb (N.eqb c) [9; 10; 12; 13; 32].

(** Removes one or two ["="] the data ends with. *)
Definition strip_padding (data : jsstring) : jsstring :=
  match rev data with
  | c1 :: r1 =>
      if c1 =? 61 then
        match r1 with
        | c2 :: r2 => if c2 =? 61 then rev r2 else rev r1
        | [] => rev r1
        end
      else data
  | [] => data
  end.

(** The bytes of a sequence of 6-bit values: three for every four, and
    the whole bytes of what is left. *)
Fixpoint decode_groups (vs : list N) : list N :=
  match vs with
  | a :: b :: c :: d :: rest =>
      (a * 4 + b / 16) :: (b mod 16 * 16 + c / 4) :: (c mod 4 * 64 + d)
      :: decode_groups rest
  | [a; b; c] => [a * 4 + b / 16; b mod 16 * 16 + c / 4]
  | [a; b] => [a * 4 + b / 16]
  | _ => []
  end.

(** [atob(data)], the forgiving base64 decoding: ASCII white space is
    dropped, then the padding of a data whose length is a multiple of 4;
    a length of 1 modulo 4 and any character outside the alphabet
    throw. *)
Definition atob (data : jsstring) : option jsstring :=
  let d1 := filter (fun c => is_ascii_whitespace c = false) data in
  let d2 := if (length d1 mod 4 =? 0)%nat then strip_padding d1 else d1 in
  if (length d2 mod 4 =? 1)%nat then None
  else decode_groups <$> mapM base64_value d2.

(** ** [bytesToBase64] and [base64ToBytes] *)

(** [String.fromCharCode(n)] and [s.charCodeAt(i)] *)
Definition fromCharCode (n : N) : N := n mod 65536.

Definition bytesToBase64 (bytes : list byte) : option jsstring :=
  let binary := map (fun b => fromCharCode (Byte.to_N b)) bytes in
  btoa binary.

Definition base64ToBytes (base64 : jsstring) : option (list byte) :=
  binary ← atob base64;
  Some (map (fun c => to_uint8 (Some (Z.of_N c))) binary).

(** ** The key string the callers build

    ["0x" + decryptedKey.toString(16).padStart(64, "0")] of [handleDecrypt]
    in [src/components/ConfidentialNewsletter.tsx], for the decrypted key
    as a non-negative [BigInt]. *)

(** The character of a hexadecimal digit, in lower case. *)
Definition hex_char (v : N) : N := if v <? 10 then 48 + v else 87 + v.

(** The hexadecimal digits of a number, lowest first, none for 0. *)
Fixpoint low_digits (fuel : nat) (n : N) : list N :=
  match fuel with
  | O => []
  | S fuel' => if n =? 0 then [] else n mod 16 :: low_digits fuel' (n / 16)
  end.

(** [n.toString(16)] *)
Definition toString16 (n : N) : jsstring :=
  if n =? 0 then js "0"
  else map hex_char (rev (low_digits (N.to_nat (N.size n)) n)).

(** [s.padStart(target, fill)] for a one-character [fill]. *)
Definition padStart (target : nat) (fill : N) (s : jsstring) : jsstring :=
  replicate (target - length s) fill ++ s.

Definition keyHex (key : N) : jsstring :=
  js "0x" ++ padStart 64 48 (toString16 key).

(** The [n] bytes of a number, highest first. *)
Fixpoint be_bytes (n : nat) (k : N) : list N :=
  match n with
  | O => []
  | S n' => be_bytes n' (k / 256) ++ [k mod 256]
  end.

(** Two hexadecimal digits per byte, in lower or in upper case. *)
Definition hex_digit (upper : bool) (v : N) : N :=
  if v <? 10 then 48 + v else if upper then 55 + v else 87 + v.

Definition bytesToHex (upper : bool) (bs : list byte) : jsstring :=
  concat (map (fun b => [hex_digit upper (Byte.to_N b / 16);
                         hex_digit upper (Byte.to_N b mod 16)]) bs).

(** ** [TextEncoder] and [TextDecoder] (WHATWG Encoding)

    [new TextEncoder().encode(s)] converts [s] to its scalar values and
    writes them in UTF-8; [new TextDecoder().decode(bytes)] is the UTF-8
    decoder with replacement, and, [ignoreBOM] being [false] by default,
    it drops a byte order mark the input starts with. *)

Definition is_lead_surrogate (c : N) : bool :=
  (0xD800 <=? c) && (c <=? 0xDBFF).
Definition is_trail_surrogate (c : N) : bool :=
  (0xDC00 <=? c) && (c <=? 0xDFFF).

(** Every element is a 16-bit code unit. *)
Definition code_units (s : jsstring) : bool :=
  forallb (fun c => c <? 65536) s.

(** [s.isWellFormed()]: no surrogate without its partner. *)
Fixpoint isWellFormed (s : jsstring) : bool :=
  match s with
  | [] => true
  | c :: rest =>
      if is_lead_surrogate c then
        match rest with
        | d :: rest' => is_trail_surrogate d && isWellFormed rest'
        | [] => false
        end
      else negb (is_trail_surrogate c) && isWellFormed rest
  end.

(** [s] starts with U+FEFF, the byte order mark. *)
Definition starts_with_bom (s : jsstring) : bool :=
  match s with
  | c :: _ => c =? 0xFEFF
  | [] => false
  end.

(** The scalar values of a string: a surrogate pair is one code point, a
    surrogate on its own becomes U+FFFD. *)
Fixpoint scalar_values (s : jsstring) : list N :=
  match s with
  | [] => []
  | c :: rest =>
      if is_lead_surrogate c then
        match rest with
        | d :: rest' =>
            if is_trail_surrogate d
            then 0x10000 + (c - 0xD800) * 0x400 + (d - 0xDC00)
                 :: scalar_values rest'
            else 0xFFFD :: scalar_values rest
        | [] => [0xFFFD]
        end
      else if is_trail_surrogate c then 0xFFFD :: scalar_values rest
      else c :: scalar_values rest
  end.

(** The UTF-8 bytes of a scalar value. Shifts and masks of the standard
    are written as quotients and remainders. *)
Definition utf8_encode (cp : N) : list N :=
  if cp <? 0x80 then [cp]
  else if cp <? 0x800 then [0xC0 + cp / 64; 0x80 + cp mod 64]
  else if cp <? 0x10000 then
    [0xE0 + cp / 4096; 0x80 + cp / 64 mod 64; 0x80 + cp mod 64]
  else
    [0xF0 + cp / 262144; 0x80 + cp / 4096 mod 64; 0x80 + cp / 64 mod 64;
     0x80 + cp mod 64].

(** The state of the UTF-8 decoder. *)
Record utf8_decoder := mkDecoder {
  code_point : N;
  bytes_seen : N;
  bytes_needed : N;
  lower_boundary : N;
  upper_boundary : N;
}.

Definition utf8_start : utf8_decoder := mkDecoder 0 0 0 0x80 0xBF.

(** A byte read while no sequence is under way: the new state and what
    is emitted. *)
Definition utf8_lead (b : N) : utf8_decoder * list N :=
  if b <=? 0x7F then (utf8_start, [b])
  else if (0xC2 <=? b) && (b <=? 0xDF) then
    (mkDecoder (b mod 32) 0 1 0x80 0xBF, [])
  else if (0xE0 <=? b) && (b <=? 0xEF) then
    (mkDecoder (b mod 16) 0 2
       (if b =? 0xE0 then 0xA0 else 0x80) (if b =? 0xED then 0x9F else 0xBF),
     [])
  else if (0xF0 <=? b) && (b <=? 0xF4) then
    (mkDecoder (b mod 8) 0 3
       (if b =? 0xF0 then 0x90 else 0x80) (if b =? 0xF4 then 0x8F else 0xBF),
     [])
  else (utf8_start, [0xFFFD]).

(** One byte: a byte out of the bounds of a sequence under way ends the
    sequence with U+FFFD and is read again as a first byte. *)
Definition utf8_step (st : utf8_decoder) (b : N) : utf8_decoder * list N :=
  if bytes_needed st =? 0 then utf8_lead b
  else if negb ((lower_boundary st <=? b) && (b <=? upper_boundary st)) then
    let '(st', out) := utf8_lead b in (st', 0xFFFD :: out)
  else
    let cp := code_point st * 64 + b mod 64 in
    if bytes_seen st + 1 =? bytes_needed st then (utf8_start, [cp])
    else (mkDecoder cp (bytes_seen st + 1) (bytes_needed st) 0x80 0xBF, []).

(** The whole input; a sequence cut short by the end gives U+FFFD. *)
Fixpoint utf8_decode (st : utf8_decoder) (bytes : list N) : list N :=
  match bytes with
  | [] => if bytes_needed st =? 0 then [] else [0xFFFD]
  | b :: rest =>
      let '(st', out) := utf8_step st b in out ++ utf8_decode st' rest
  end.

(** The first decoded item is dropped when it is U+FEFF. *)
Definition strip_bom (cps : list N) : list N :=
  match cps with
  | c :: rest => if c =? 0xFEFF then rest else cps
  | [] => []
  end.

(** The code units of a scalar value. *)
Definition utf16_encode (cp : N) : list N :=
  if cp <? 0x10000 then [cp]
  else [0xD800 + (cp - 0x10000) / 0x400; 0xDC00 + (cp - 0x10000) mod 0x400].

Definition to_byte (n : N) : byte := default x00 (Byte.of_N n).

Definition TextEncoder_encode (input : jsstring) : list byte :=
  map to_byte (concat (map utf8_encode (scalar_values input))).

Definition TextDecoder_decode (input : list byte) : jsstring :=
  concat (map utf16_encode
            (strip_bom (utf8_decode utf8_start (map Byte.to_N input)))).

(** ** Web Crypto

    AES-GCM and the random generator are the platform's. A key is known
    by its raw bytes. What the code relies on is that decryption under
    the key and IV of the encryption gives the data back, and that
    [getRandomValues] fills the array it is given. Encryption does not
    fail for the sizes at hand and is taken as total; decryption throws
    an [OperationError] when the tag does not verify. *)

Inductive DOMException :=
| DataError
| OperationError
| InvalidCharacterError.

Class WebCrypto := {
  getRandomValues : nat -> list byte;
  aes_gcm_encrypt : list byte -> list byte -> list byte -> list byte;
  aes_gcm_decrypt : list byte -> list byte -> list byte -> option (list byte);
  getRandomValues_length n : length (getRandomValues n) = n;
  aes_gcm_decrypt_encrypt key iv data :
    aes_gcm_decrypt key iv (aes_gcm_encrypt key iv data) = Some data;
}.

(** A cipher whose tag check fails under every key but the one of the
    encryption, among keys of one size. *)
Definition authenticating `{WebCrypto} : Prop :=
  forall key key' iv data,
    length key' = length key -> key' ≠ key ->
    aes_gcm_decrypt key' iv (aes_gcm_encrypt key iv data) = None.

(** A promise that resolves or rejects. *)
Definition Promise (A : Type) : Type := DOMException + A.

#[global] Instance Promise_ret : MRet Promise := fun A a => inr a.
#[global] Instance Promise_bind : MBind Promise := fun A B f m =>
  match m with
  | inl e => inl e
  | inr a => f a
  end.

(** What [btoa] and [atob] throw. *)
Definition or_throw {A} (r : option A) : Promise A :=
  match r with
  | Some a => inr a
  | None => inl InvalidCharacterError
  end.

Definition CryptoKey := list byte.

(** [crypto.subtle.importKey('raw', keyData, {name: 'AES-GCM'}, ...)]:
    a key of 128, 192 or 256 bits, or a [DataError]. *)
Definition importKey (keyData : list byte) : Promise CryptoKey :=
  if bool_decide (length keyData ∈ [16; 24; 32]%nat) then inr keyData
  else inl DataError.

Definition importAesKey (keyHex : jsstring) : Promise CryptoKey :=
  let keyBytes := hexToBytes keyHex in
  importKey keyBytes.

Record Envelope := mkEnvelope { iv : jsstring; encryptedContent : jsstring }.

Section Envelope.
Context `{WebCrypto}.

Definition generateIv : list byte := getRandomValues 12.

Definition encryptContent (content keyHex : jsstring) : Promise Envelope :=
  cryptoKey ← importAesKey keyHex;
  let iv := generateIv in
  let contentBytes := TextEncoder_encode content in
  let encryptedBytes := aes_gcm_encrypt cryptoKey iv contentBytes in
  iv64 ← or_throw (bytesToBase64 iv);
  encrypted64 ← or_throw (bytesToBase64 encryptedBytes);
  mret (mkEnvelope iv64 encrypted64).

Definition decryptContent (encryptedContent iv keyHex : jsstring)
  : Promise jsstring :=
  cryptoKey ← importAesKey keyHex;
  ivBytes ← or_throw (base64ToBytes iv);
  encryptedBytes ← or_throw (base64ToBytes encryptedContent);
  decryptedBytes ←
    match aes_gcm_decrypt cryptoKey ivBytes encryptedBytes with
    | Some data => inr data
    | None => inl OperationError
    end;
  mret (TextDecoder_decode decryptedBytes).

(** Sealing, then opening what was sealed, under a key each. *)
Definition seal_then_open (content keyHex openKeyHex : jsstring)
  : Promise jsstring :=
  envelope ← encryptContent content keyHex;
  decryptContent (encryptedContent envelope) (iv envelope) openKeyHex.

End Envelope.

(** ** A platform to compute with

    Its "cipher" writes the key and the IV in front of the data and
    checks them when opening: it keeps nothing secret and only serves to
    run the code. Its generator always answers with bytes of 42. *)

#[global] Instance byte_eq_decision : EqDecision byte := Byte.byte_eq_dec.

Definition toy_encrypt (key iv data : list byte) : list byte :=
  key ++ iv ++ data.

Definition toy_decrypt (key iv data : list byte) : option (list byte) :=
  if bool_decide (take (length key + length iv) data = key ++ iv)
  then Some (drop (length key + length iv) data)
  else None.

#[global] Program Instance test_crypto : WebCrypto := {|
  getRandomValues n := replicate n x2a;
  aes_gcm_encrypt := toy_encrypt;
  aes_gcm_decrypt := toy_decrypt;
|}.
Next Obligation. intros n. apply length_replicate. Qed.
Next Obligation.
  intros key iv data. unfold toy_decrypt, toy_encrypt. rewrite app_assoc.
  rewrite <- length_app, take_app_length, drop_app_length.
  by rewrite bool_decide_eq_true_2.
Qed.

(** A key of 256 bits, another one, and two plaintexts, the second with a
    byte order mark in front. *)
Definition test_key : jsstring :=
  js "0x00112233445566778899aabbccddeeff00112233445566778899aabbccddeeff".
Definition other_key : jsstring :=
  js "0xff112233445566778899aabbccddeeff00112233445566778899aabbccddeeff".
Definition hello : jsstring := js "Hello".
Definition bom_hello : jsstring := 0xFEFF :: js "Hello".

(** The first half of a surrogate pair on its own, and U+FFFD. *)
Definition lone_surrogate : jsstring := [0xD83D].
Definition replacement : jsstring := [0xFFFD].

(** ** Auxiliary notions of the proofs *)

(** The 6-bit values of a byte sequence, without padding. *)
Fixpoint sextets (bs : list N) : list N :=
  match bs with
  | a :: b :: c :: rest =>
      a / 4 :: (a mod 4 * 16 + b / 16) :: (b mod 16 * 4 + c / 64) :: c mod 64
      :: sextets rest
  | [a; b] => [a / 4; a mod 4 * 16 + b / 16; b mod 16 * 4]
  | [a] => [a / 4; a mod 4 * 16]
  | [] => []
  end.

Definition padding (bs : list N) : jsstring :=
  match (length bs mod 3)%nat with
  | 1%nat => [61; 61]
  | 2%nat => [61]
  | _ => []
  end.

(** A string cut in pairs; an odd last character is left out. *)
Fixpoint pairs (s : jsstring) : list jsstring :=
  match s with
  | a :: b :: rest => [a; b] :: pairs rest
  | _ => []
  end.

(** The [n] hexadecimal digits of a number, highest first. *)
Fixpoint hex_digits (n : nat) (k : N) : list N :=
  match n with
  | O => []
  | S n' => hex_digits n' (k / 16) ++ [k mod 16]
  end.

(** A Unicode scalar value. *)
Definition is_scalar (cp : N) : Prop :=
  cp < 0x110000 /\ ~ (0xD800 <= cp <= 0xDFFF).

End Crypto.


(** * Properties of the contract *)

Ltac tx_unfold :=
  unfold onlyOwner, nonReentrant, allow, receive_value, call_value, require,
    add_uint256, mbind, mret, M_bind, M_ret, bind, ret, revert, get, modify,
    emit in *.

(** Computes nested field updates of a state written out as a record. *)
Ltac state_simpl :=
  cbv [extended set_owner set_reentrancyEntered set_subscriptionPrice
       set_subscriptionDuration set_contentKey set_contentKeySet
       set_expiration set_totalRevenue set_acl set_balance
       owner reentrancyEntered name subscriptionPrice subscriptionDuration
       contentKey contentKeySet expirationTimestamps totalRevenue acl balance
       expiration] in *.

Section ContractFacts.
Context `{Host}.

(** ** Each function in closed form *)

Lemma checked_add_Some a b c : checked_add a b = Some c -> c = a + b.
Proof. unfold checked_add. case_match; congruence. Qed.

Lemma onlyOwner_eq {A} sender (body : M A) s :
  onlyOwner sender body s =
  if decide (owner s = sender) then body s
  else Revert (OwnableUnauthorizedAccount sender).
Proof.
  unfold onlyOwner. tx_unfold. simpl.
  destruct (decide (owner s = sender)); [|done].
  by destruct (body s).
Qed.

Lemma createOrExtend_eq env a d p s :
  _createOrExtendSubscription env a d p s =
  match checked_add (N.max (expiration s a) (timestamp env)) d with
  | None => Revert Panic_overflow
  | Some e =>
      match checked_add (totalRevenue s) p with
      | None => Revert Panic_overflow
      | Some r =>
          Success tt (extended a e r s)
            [Emit (if expiration s a =? 0
                   then SubscriptionPurchased a e p
                   else SubscriptionRenewed a e);
             Emit (KeyAccessGranted a)]
      end
  end.
Proof.
  unfold _createOrExtendSubscription. tx_unfold. simpl.
  destruct (N.eqb_spec (expiration s a) 0) as [E|E].
  - rewrite E, N.max_0_l.
    destruct (checked_add (timestamp env) d); simpl; [|done].
    by destruct (checked_add (totalRevenue s) p).
  - destruct (N.ltb_spec (timestamp env) (expiration s a)).
    + rewrite N.max_l by lia.
      destruct (checked_add (expiration s a) d); simpl; [|done].
      by destruct (checked_add (totalRevenue s) p).
    + rewrite N.max_r by lia.
      destruct (checked_add (timestamp env) d); simpl; [|done].
      by destruct (checked_add (totalRevenue s) p).
Qed.

Lemma setContentKey_eq sender ek pf s :
  setContentKey sender ek pf s =
  if decide (owner s = sender) then
    if contentKeySet s then Revert ContentKeyAlreadySet
    else match fromExternal sender ek pf with
         | None => Revert InvalidInputProof
         | Some k =>
             Success tt
               (set_contentKeySet true
                  (set_acl ({[ (k, sender) ]} ∪ ({[ (k, this) ]} ∪ acl s))
                     (set_contentKey k s)))
               [Emit (ContentKeySet sender)]
         end
  else Revert (OwnableUnauthorizedAccount sender).
Proof.
  unfold setContentKey. rewrite onlyOwner_eq.
  destruct (decide _); [|done]. tx_unfold. simpl.
  destruct (contentKeySet s); [done|].
  by destruct (fromExternal sender ek pf).
Qed.

Lemma updateSubscriptionParams_eq sender p d s :
  updateSubscriptionParams sender p d s =
  if decide (owner s = sender) then
    if d =? 0 then Revert InvalidDuration
    else Success tt (set_subscriptionDuration d (set_subscriptionPrice p s))
           [Emit (SubscriptionParamsUpdated p d)]
  else Revert (OwnableUnauthorizedAccount sender).
Proof.
  unfold updateSubscriptionParams. rewrite onlyOwner_eq.
  destruct (decide _); [|done]. tx_unfold.
  by destruct (d =? 0).
Qed.

Lemma withdraw_eq env sender s :
  withdraw env sender s =
  if decide (owner s = sender) then
    if reentrancyEntered s then Revert ReentrancyGuardReentrantCall
    else if balance s =? 0 then Revert NoFundsToWithdraw
    else if accepts env (owner s) (balance s)
    then Success tt (set_balance 0 s)
           [Sent (owner s) (balance s);
            Emit (FundsWithdrawn (owner s) (balance s))]
    else Revert (Error_string "Transfer failed")
  else Revert (OwnableUnauthorizedAccount sender).
Proof.
  unfold withdraw. rewrite onlyOwner_eq.
  destruct (decide _); [|done]. tx_unfold. simpl.
  destruct s as [o g n p d k ks ex tr ac b]; simpl in *.
  destruct g; [done|]. simpl.
  destruct (b =? 0) eqn:Hb; [done|].
  rewrite N.leb_refl. simpl.
  destruct (accepts env o b); simpl; [|done].
  by rewrite N.sub_diag.
Qed.

Lemma grantSubscription_eq env sender a d s :
  grantSubscription env sender a d s =
  if decide (owner s = sender) then
    if contentKeySet s then _createOrExtendSubscription env a d 0 s
    else Revert ContentKeyNotSet
  else Revert (OwnableUnauthorizedAccount sender).
Proof.
  unfold grantSubscription. rewrite onlyOwner_eq.
  destruct (decide _); [|done]. tx_unfold. simpl.
  destruct (contentKeySet s); simpl; [|done].
  by destruct (_createOrExtendSubscription env a d 0 s).
Qed.

Lemma subscribe_eq env sender value s :
  subscribe env sender value s =
  if reentrancyEntered s then Revert ReentrancyGuardReentrantCall
  else if contentKeySet s then
    if value <? subscriptionPrice s
    then Revert (InsufficientPayment (subscriptionPrice s) value)
    else
      match checked_add (N.max (expiration s sender) (timestamp env))
              (subscriptionDuration s) with
      | None => Revert Panic_overflow
      | Some e =>
          match checked_add (totalRevenue s) value with
          | None => Revert Panic_overflow
          | Some r =>
              let granted :=
                [Emit (if expiration s sender =? 0
                       then SubscriptionPurchased sender e value
                       else SubscriptionRenewed sender e);
                 Emit (KeyAccessGranted sender)] in
              if subscriptionPrice s <? value then
                if accepts env sender (value - subscriptionPrice s)
                then Success tt
                       (set_balance (balance s + subscriptionPrice s)
                          (extended sender e r s))
                       (granted ++ [Sent sender (value - subscriptionPrice s)])
                else Revert (Error_string "Refund failed")
              else Success tt
                     (set_balance (balance s + value) (extended sender e r s))
                     granted
          end
      end
  else Revert ContentKeyNotSet.
Proof.
  unfold subscribe. tx_unfold. simpl.
  destruct s as [o g n p d k ks ex tr ac b]; simpl in *.
  destruct g; [done|]. simpl.
  destruct ks; [|done]. simpl.
  destruct (N.ltb_spec value p); [done|].
  rewrite createOrExtend_eq. simpl.
  unfold expiration. simpl.
  destruct (checked_add (N.max _ _) _) as [e|]; [|done].
  destruct (checked_add tr value) as [r|]; [|done]. simpl.
  destruct (N.ltb_spec p value); simpl; [|done].
  replace (value - p <=? b + value) with true
    by (symmetry; apply N.leb_le; lia). simpl.
  destruct (accepts env sender (value - p)); simpl; [|done].
  state_simpl. do 2 f_equal. lia.
Qed.

Lemma transferOwnership_eq sender newOwner s :
  transferOwnership sender newOwner s =
  if decide (owner s = sender) then
    if decide (newOwner = 0) then Revert (OwnableInvalidOwner 0)
    else Success tt (set_owner newOwner s)
           [Emit (OwnershipTransferred (owner s) newOwner)]
  else Revert (OwnableUnauthorizedAccount sender).
Proof.
  unfold transferOwnership. rewrite onlyOwner_eq.
  destruct (decide _); [|done]. tx_unfold.
  by destruct (decide (newOwner = 0)).
Qed.

Lemma renounceOwnership_eq sender s :
  renounceOwnership sender s =
  if decide (owner s = sender) then
    Success tt (set_owner 0 s) [Emit (OwnershipTransferred (owner s) 0)]
  else Revert (OwnableUnauthorizedAccount sender).
Proof.
  unfold renounceOwnership. rewrite onlyOwner_eq.
  by destruct (decide _).
Qed.

(** ** How one transaction moves the state *)

(** Rewrites a call into its closed form. *)
Ltac exec_eq :=
  unfold step, exec; cbn [tx_env tx_sender tx_call];
  rewrite ?setContentKey_eq, ?updateSubscriptionParams_eq, ?withdraw_eq,
    ?grantSubscription_eq, ?subscribe_eq, ?transferOwnership_eq,
    ?renounceOwnership_eq, ?createOrExtend_eq.

(** Splits on every test of the closed form; what remains are the
    successful paths that the side conditions do not rule out. *)
Ltac exec_cases :=
  repeat (first
    [ progress (cbn [state_after effects_of] in * )
    | done
    | match goal with
      | |- context [decide ?P] => destruct (decide P)
      | |- context [if ?b then _ else _] => destruct b eqn:?
      | |- context [match ?o with Some _ => _ | None => _ end] =>
          destruct o eqn:?
      end ]).

Lemma step_guard s t :
  reentrancyEntered (step s t) = reentrancyEntered s.
Proof.
  destruct t as [env sender []], s as [o g n p d k ks ex tr ac b];
    exec_eq; state_simpl; exec_cases.
Qed.

Lemma step_duration s t :
  subscriptionDuration s ≠ 0 -> subscriptionDuration (step s t) ≠ 0.
Proof.
  destruct t as [env sender []], s as [o g n p d k ks ex tr ac b];
    exec_eq; state_simpl; exec_cases.
  intros _. by apply N.eqb_neq.
Qed.

(** Once set, the key and its flag stay as they are. *)
Lemma step_key_kept s t :
  contentKeySet s = true ->
  contentKeySet (step s t) = true /\ contentKey (step s t) = contentKey s.
Proof.
  destruct t as [env sender []], s as [o g n p d k ks ex tr ac b];
    exec_eq; state_simpl; intros ->; exec_cases.
Qed.

(** While the key is not set, no transaction touches the ledger. *)
Lemma step_before_key s t :
  contentKeySet s = false ->
  expirationTimestamps (step s t) = expirationTimestamps s /\
  totalRevenue (step s t) = totalRevenue s /\
  (contentKeySet (step s t) = false ->
   contentKey (step s t) = contentKey s /\ acl (step s t) = acl s).
Proof.
  destruct t as [env sender []], s as [o g n p d k ks ex tr ac b];
    exec_eq; state_simpl; intros ->; exec_cases.
Qed.

(** A successful call writes the one entry it extends, to the later of the
    old expiration and now, plus the granted duration; any other call
    leaves the expiration table alone. *)
Lemma exec_expirations env sender c s s' fx :
  exec env sender c s = Success tt s' fx ->
  expirationTimestamps s' =
  match grants s sender c with
  | Some (who, d) =>
      <[who := N.max (expiration s who) (timestamp env) + d]>
        (expirationTimestamps s)
  | None => expirationTimestamps s
  end.
Proof.
  destruct c; cbn [grants];
    try solve [destruct s as [o g n p d k ks ex tr ac b];
               exec_eq; state_simpl; exec_cases; by intros [= <- <-]].
  - (* grantSubscription *)
    exec_eq.
    destruct (decide _); [|done].
    destruct (contentKeySet s); [|done].
    destruct (checked_add (N.max _ _) _) as [e'|] eqn:He; [|done].
    destruct (checked_add (totalRevenue s) 0) as [r|]; [|done].
    apply checked_add_Some in He. subst e'.
    intros [= <- <-]. by destruct s.
  - (* subscribe *)
    exec_eq.
    destruct (reentrancyEntered s); [done|].
    destruct (contentKeySet s); [|done].
    destruct (value <? subscriptionPrice s); [done|].
    destruct (checked_add (N.max _ _) _) as [e'|] eqn:He; [|done].
    destruct (checked_add (totalRevenue s) value) as [r|]; [|done].
    apply checked_add_Some in He. subst e'.
    cbn zeta.
    destruct (subscriptionPrice s <? value).
    + destruct (accepts env sender _); [|done].
      intros [= <- <-]. by destruct s.
    + intros [= <- <-]. by destruct s.
Qed.

Lemma step_expirations s t :
  expirationTimestamps (step s t) = expirationTimestamps s \/
  exists who d,
    expirationTimestamps (step s t) =
      <[who := N.max (expiration s who) (timestamp (tx_env t)) + d]>
        (expirationTimestamps s).
Proof.
  destruct t as [env sender c]. unfold step. cbn [tx_env tx_sender tx_call].
  destruct (exec env sender c s) as [[] s' fx|] eqn:E; [|by left].
  apply exec_expirations in E. cbn [state_after]. rewrite E.
  destruct (grants s sender c) as [[who d]|]; [right; eauto|by left].
Qed.

Lemma expiration_insert (m : gmap address N) who e a :
  default 0 (<[who := e]> m !! a) =
  if decide (who = a) then e else default 0 (m !! a).
Proof. rewrite lookup_insert. by destruct (decide (who = a)). Qed.

(** No transaction lowers anybody's expiration. *)
Lemma step_expiration_mono s t a :
  expiration s a <= expiration (step s t) a.
Proof.
  destruct (step_expirations s t) as [E|(who & d & E)];
    unfold expiration at 2; rewrite E; [done|].
  rewrite expiration_insert. destruct (decide (who = a)) as [->|]; [|done].
  lia.
Qed.

Lemma run_app s ts1 ts2 : run s (ts1 ++ ts2) = run (run s ts1) ts2.
Proof. apply fold_left_app. Qed.

Lemma run_expiration_mono ts s a :
  expiration s a <= expiration (run s ts) a.
Proof.
  revert s. induction ts as [|t ts IH]; intros s; [done|].
  change (run s (t :: ts)) with (run (step s t) ts).
  etrans; [apply (step_expiration_mono s t)|apply IH].
Qed.

Lemma run_key_kept ts s :
  contentKeySet s = true ->
  contentKeySet (run s ts) = true /\ contentKey (run s ts) = contentKey s.
Proof.
  revert s. induction ts as [|t ts IH]; intros s Hs; [done|].
  destruct (step_key_kept s t Hs) as [Hk Hc].
  destruct (IH _ Hk) as [? ?].
  change (run s (t :: ts)) with (run (step s t) ts). split; [done|congruence].
Qed.

(** ** What holds between transactions *)

Lemma reachable_inv s : reachable s -> inv s.
Proof.
  induction 1 as [sender funds nm price duration s Hc|s t _ IH|s amount _ IH].
  - unfold constructor in Hc.
    destruct (decide (sender = 0)); [done|].
    destruct (N.eqb_spec duration 0); [done|].
    injection Hc as <-. by split.
  - destruct IH as [Hg Hd Hn]. split.
    + by rewrite step_guard.
    + by apply step_duration.
    + intros Hk.
      destruct (contentKeySet s) eqn:Hs.
      * destruct (step_key_kept s t Hs). congruence.
      * destruct (step_before_key s t Hs) as (-> & -> & Hrest).
        destruct (Hrest Hk) as [-> ->]. by apply Hn.
  - destruct IH as [Hg Hd Hn]. split; by destruct s.
Qed.

End ContractFacts.

Section ContractClaims.
Context `{Host}.

(** ** Payment accounting *)

(** What a successful [subscribe] does with the money: the contract keeps
    the price, the sender gets the rest back, and [totalRevenue] grows by
    the whole amount sent. *)
Lemma subscribe_accounting env sender value s s' fx :
  subscribe env sender value s = Success tt s' fx ->
  subscriptionPrice s <= value /\
  balance s' = balance s + subscriptionPrice s /\
  transfers fx =
    (if subscriptionPrice s <? value
     then [(sender, value - subscriptionPrice s)] else []) /\
  totalRevenue s' = totalRevenue s + value.
Proof.
  rewrite subscribe_eq.
  destruct (reentrancyEntered s); [done|].
  destruct (contentKeySet s); [|done].
  destruct (N.ltb_spec value (subscriptionPrice s)); [done|].
  destruct (checked_add (N.max _ _) _) as [e|]; [|done].
  destruct (checked_add (totalRevenue s) value) as [r|] eqn:Hr; [|done].
  apply checked_add_Some in Hr. subst r. cbn zeta.
  destruct (N.ltb_spec (subscriptionPrice s) value).
  - destruct (accepts env sender _); [|done].
    intros [= <- <-]. destruct s. state_simpl. repeat split; (done || lia).
  - intros [= <- <-]. destruct s. state_simpl. repeat split; (done || lia).
Qed.

End ContractClaims.

(** C1. A successful [subscribe] with more than the price refunds exactly
    the excess, and the revenue counter should grow by the price. The code
    passes [msg.value] as [_pricePaid]: with a price of 100 wei and 150 wei
    sent, 50 wei go back to the sender, the contract's balance grows by
    100, and [totalRevenue] grows by 150. *)
Theorem subscribe_revenue_counts_refunded_excess :
  let r := subscribe (at_time 5000) alice 150 with_key in
  subscriptionPrice with_key = 100 /\
  (exists s' fx, r = Success tt s' fx) /\
  transfers (effects_of r) = [(alice, 50)] /\
  balance (state_after with_key r) = balance with_key + 100 /\
  totalRevenue (state_after with_key r) = totalRevenue with_key + 150 /\
  totalRevenue (state_after with_key r) ≠ totalRevenue with_key + 100.
Proof.
  cbv zeta. rewrite subscribe_eq.
  repeat split; try (vm_compute; done).
  vm_compute. eauto.
Qed.

Section Expiration.
Context `{Host}.

(** C2. For every successful [subscribe] or [grantSubscription] call, the
    expiration of the identity it extends becomes the later of its prior
    expiration and now, plus the granted duration; a first-time record
    (prior expiration 0) gets now plus the duration; and the expiration of
    any identity never goes down, over that call and over whatever
    transactions follow. *)
Theorem expiration_renewal_rule env sender c s s' fx who d :
  exec env sender c s = Success tt s' fx ->
  grants s sender c = Some (who, d) ->
  expiration s' who = N.max (expiration s who) (timestamp env) + d /\
  (expiration s who = 0 -> expiration s' who = timestamp env + d) /\
  expiration s who <= expiration s' who /\
  (forall ts a, expiration s a <= expiration (run s' ts) a).
Proof.
  intros Hx Hg.
  assert (Hs : s' = step s (mkTx env sender c))
    by (unfold step; cbn [tx_env tx_sender tx_call]; by rewrite Hx).
  pose proof (exec_expirations _ _ _ _ _ _ Hx) as E. rewrite Hg in E.
  assert (Hw : expiration s' who
               = N.max (expiration s who) (timestamp env) + d).
  { unfold expiration at 1. rewrite E, expiration_insert.
    by destruct (decide (who = who)). }
  repeat split.
  - done.
  - intros Hz. rewrite Hw, Hz. by rewrite N.max_0_l.
  - lia.
  - intros ts a. etrans; [|apply run_expiration_mono].
    subst s'. apply step_expiration_mono.
Qed.

End Expiration.

Lemma expiration_renewal_rule_witness :
  @exec test_host (at_time 5000) alice (Subscribe 150) with_key
    = Success tt alice_joined
        (effects_of (@exec test_host (at_time 5000) alice (Subscribe 150) with_key)) /\
  grants with_key alice (Subscribe 150) = Some (alice, 2592000) /\
  expiration alice_joined alice = N.max (expiration with_key alice) 5000 + 2592000.
Proof.
  assert (Hx : @exec test_host (at_time 5000) alice (Subscribe 150) with_key
    = Success tt alice_joined
        (effects_of (@exec test_host (at_time 5000) alice (Subscribe 150) with_key)))
    by (vm_compute; reflexivity).
  assert (Hg : grants with_key alice (Subscribe 150) = Some (alice, 2592000))
    by reflexivity.
  split; [exact Hx|]. split; [exact Hg|].
  exact (proj1 (@expiration_renewal_rule test_host _ _ _ _ _ _ _ _ Hx Hg)).
Defined.

(** ** The read gate of the key *)

(** C3 (counterexample). On a freshly deployed contract, whose key was
    never set, the owner's [getContentKey] returns the unset handle: it
    does not fail with [ContentKeyNotSet]. *)
Lemma getContentKey_unset_key_counterexample :
  constructor publisher 0 "Newsletter" 100 2592000 = inr deployed /\
  contentKeySet deployed = false /\
  getContentKey (at_time 5000) publisher deployed = inr 0 /\
  getContentKey (at_time 5000) publisher deployed ≠ inl ContentKeyNotSet.
Proof. by vm_compute. Qed.

Section ReadGate.
Context `{Host}.

(** C3 (amended). [getContentKey] never fails with [ContentKeyNotSet].
    While the key has never been set, it fails for every caller but the
    owner, with [NoValidSubscription] as nobody holds a subscription yet,
    and it returns the unset handle, zero, to the owner. *)
Theorem getContentKey_before_key_set env sender s :
  getContentKey env sender s ≠ inl ContentKeyNotSet /\
  (reachable s ->
   contentKeySet s = false ->
   (sender = owner s -> getContentKey env sender s = inr 0) /\
   (sender ≠ owner s ->
    getContentKey env sender s = inl NoValidSubscription)).
Proof.
  split.
  { unfold getContentKey. by destruct (_ && _). }
  intros Hr Hk. destruct (reachable_inv _ Hr) as [_ _ Hn].
  destruct (Hn Hk) as (Hex & _ & Hc & _).
  unfold getContentKey, _isSubscriptionValid, expiration.
  rewrite Hex, lookup_empty, Hc. cbn [default].
  replace (timestamp env <? 0) with false
    by (symmetry; apply N.ltb_ge; lia).
  cbn [negb andb]. split.
  - intros ->. by rewrite bool_decide_eq_true_2.
  - intros Hne. by rewrite bool_decide_eq_false_2.
Qed.

Lemma getContentKey_eq env sender s :
  getContentKey env sender s =
  if decide (sender = owner s) then inr (contentKey s)
  else if timestamp env <? expiration s sender then inr (contentKey s)
  else inl NoValidSubscription.
Proof.
  unfold getContentKey, _isSubscriptionValid.
  destruct (decide (sender = owner s)).
  - rewrite bool_decide_eq_true_2 by done. by rewrite andb_false_r.
  - rewrite bool_decide_eq_false_2 by done. rewrite andb_true_r.
    by destruct (timestamp env <? expiration s sender).
Qed.

(** C5. [getContentKey] succeeds for the owner in every state, subscribed
    or not; for any other caller it fails with [NoValidSubscription]
    exactly when the caller's expiration is not after now, and hands out
    the key handle when the expiration is after now. *)
Theorem getContentKey_gate env sender s :
  (sender = owner s -> getContentKey env sender s = inr (contentKey s)) /\
  (sender ≠ owner s ->
     (getContentKey env sender s = inl NoValidSubscription
        <-> expiration s sender <= timestamp env) /\
     (timestamp env < expiration s sender ->
        getContentKey env sender s = inr (contentKey s))).
Proof.
  rewrite getContentKey_eq. split.
  - intros Ho. by destruct (decide (sender = owner s)).
  - intros Hne. destruct (decide (sender = owner s)); [done|].
    destruct (N.ltb_spec (timestamp env) (expiration s sender)).
    + split; [|done]. split; [done|lia].
    + split; [done|lia].
Qed.

(** A reachable contract grants a positive duration, so whoever has just
    subscribed passes the gate. *)
Lemma subscribe_opens_gate env sender value s s' fx :
  reachable s ->
  subscribe env sender value s = Success tt s' fx ->
  getContentKey env sender s' = inr (contentKey s').
Proof.
  intros Hr Hx. destruct (reachable_inv _ Hr) as [_ Hd _].
  pose proof (exec_expirations env sender (Subscribe value) s s' fx Hx) as E.
  cbn [grants] in E.
  rewrite getContentKey_eq.
  destruct (decide (sender = owner s')); [done|].
  unfold expiration at 1. rewrite E, expiration_insert.
  destruct (decide (sender = sender)); [|done].
  by destruct (N.ltb_spec (timestamp env)
    (N.max (expiration s sender) (timestamp env) + subscriptionDuration s));
    [|lia].
Qed.

End ReadGate.

Lemma getContentKey_before_key_set_witness :
  @reachable test_host deployed /\
  contentKeySet deployed = false /\
  getContentKey (at_time 5000) alice deployed = inl NoValidSubscription.
Proof.
  assert (Hr : @reachable test_host deployed)
    by (apply (reach_deployed publisher 0 "Newsletter" 100 2592000);
        reflexivity).
  assert (Hk : contentKeySet deployed = false) by reflexivity.
  split; [exact Hr|]. split; [exact Hk|].
  apply (proj2 (@getContentKey_before_key_set test_host (at_time 5000) alice
                  deployed) Hr Hk).
  vm_compute. discriminate.
Defined.

Lemma getContentKey_gate_witness :
  alice ≠ owner alice_joined /\
  5000 < expiration alice_joined alice /\
  getContentKey (at_time 5000) alice alice_joined = inr (contentKey alice_joined).
Proof.
  assert (Hne : alice ≠ owner alice_joined) by (vm_compute; discriminate).
  assert (Hlt : 5000 < expiration alice_joined alice) by (vm_compute; reflexivity).
  split; [exact Hne|]. split; [exact Hlt|].
  exact (proj2 (proj2 (getContentKey_gate (at_time 5000) alice alice_joined) Hne) Hlt).
Defined.

(** ** The set-once vault *)

(** C4 (counterexample). The publisher has set the key; a second
    [setContentKey], sent by Alice, is stopped by the owner gate with
    [OwnableUnauthorizedAccount], not with [ContentKeyAlreadySet]. *)
Lemma setContentKey_twice_counterexample :
  @setContentKey test_host publisher 77 [] deployed
    = Success tt with_key [Emit (ContentKeySet publisher)] /\
  @setContentKey test_host alice 78 [] with_key
    = Revert (OwnableUnauthorizedAccount alice) /\
  @setContentKey test_host alice 78 [] with_key ≠ Revert ContentKeyAlreadySet.
Proof. by vm_compute. Qed.

Section Vault.
Context `{Host}.

(** C4 (amended). After one successful [setContentKey], and whatever
    transactions follow it, every further [setContentKey] fails, whoever
    sends it and whatever it carries: with [ContentKeyAlreadySet] when the
    sender is the owner, with [OwnableUnauthorizedAccount] otherwise. The
    stored handle and the [contentKeySet] flag after the failed attempt
    are those the first call left. *)
Theorem setContentKey_only_once sender0 k0 p0 s0 s1 fx ts sender k p :
  setContentKey sender0 k0 p0 s0 = Success tt s1 fx ->
  let s2 := run s1 ts in
  let again := setContentKey sender k p s2 in
  again = Revert (if decide (owner s2 = sender) then ContentKeyAlreadySet
                  else OwnableUnauthorizedAccount sender) /\
  contentKey (state_after s2 again) = contentKey s1 /\
  contentKeySet (state_after s2 again) = contentKeySet s1 /\
  contentKeySet s1 = true.
Proof.
  intros Hx s2 again.
  assert (Hset : contentKeySet s1 = true).
  { rewrite setContentKey_eq in Hx.
    destruct (decide _); [|done].
    destruct (contentKeySet s0); [done|].
    destruct (fromExternal sender0 k0 p0); [|done].
    by injection Hx as <- <-. }
  destruct (run_key_kept ts s1 Hset) as [Hk Hc]. fold s2 in Hk, Hc.
  assert (Hagain : again =
    Revert (if decide (owner s2 = sender) then ContentKeyAlreadySet
            else OwnableUnauthorizedAccount sender)).
  { unfold again. rewrite setContentKey_eq, Hk. by destruct (decide _). }
  rewrite Hagain. cbn [state_after]. by rewrite Hset.
Qed.

End Vault.

Lemma setContentKey_only_once_witness :
  @setContentKey test_host publisher 77 [] deployed
    = Success tt with_key [Emit (ContentKeySet publisher)] /\
  @setContentKey test_host publisher 78 []
      (@run test_host with_key [overpaid_tx])
    = Revert ContentKeyAlreadySet.
Proof.
  assert (Hx : @setContentKey test_host publisher 77 [] deployed
    = Success tt with_key [Emit (ContentKeySet publisher)])
    by (vm_compute; reflexivity).
  split; [exact Hx|].
  exact (proj1 (@setContentKey_only_once test_host _ _ _ _ _ _
                  [overpaid_tx] publisher 78 [] Hx)).
Defined.

(** ** Payment errors and parameters *)

(** C6 (counterexample). Before the key is set, a [subscribe] that sends
    less than the price fails with [ContentKeyNotSet], not with
    [InsufficientPayment]. *)
Lemma subscribe_underpaid_counterexample :
  10 < subscriptionPrice deployed /\
  subscribe (at_time 5000) alice 10 deployed = Revert ContentKeyNotSet /\
  subscribe (at_time 5000) alice 10 deployed
    ≠ Revert (InsufficientPayment (subscriptionPrice deployed) 10).
Proof. by vm_compute. Qed.

(** C7 (counterexample). [updateSubscriptionParams] with a zero duration,
    sent by Alice, fails with [OwnableUnauthorizedAccount], not with
    [InvalidDuration]. *)
Lemma updateSubscriptionParams_counterexample :
  updateSubscriptionParams alice 5 0 deployed
    = Revert (OwnableUnauthorizedAccount alice) /\
  updateSubscriptionParams alice 5 0 deployed ≠ Revert InvalidDuration.
Proof. by vm_compute. Qed.

(** C10 (counterexample). Before the key is set, a [grantSubscription]
    sent by Alice fails with [OwnableUnauthorizedAccount], not with
    [ContentKeyNotSet]. *)
Lemma grantSubscription_before_key_counterexample :
  contentKeySet deployed = false /\
  grantSubscription (at_time 5000) alice bob 60 deployed
    = Revert (OwnableUnauthorizedAccount alice) /\
  grantSubscription (at_time 5000) alice bob 60 deployed
    ≠ Revert ContentKeyNotSet.
Proof. by vm_compute. Qed.

Section Payments.
Context `{Host}.

(** C6 (amended). Between transactions, every [subscribe] that sends less
    than the price fails and leaves the state as it was: no expiration,
    revenue or access-list change. The error is [InsufficientPayment] once
    the key has been set, and [ContentKeyNotSet] before that. *)
Theorem subscribe_underpaid env sender value s :
  reachable s ->
  value < subscriptionPrice s ->
  subscribe env sender value s =
    Revert (if contentKeySet s
            then InsufficientPayment (subscriptionPrice s) value
            else ContentKeyNotSet) /\
  step s (mkTx env sender (Subscribe value)) = s.
Proof.
  intros Hr Hlt. destruct (reachable_inv _ Hr) as [Hg _ _].
  assert (E : subscribe env sender value s =
    Revert (if contentKeySet s
            then InsufficientPayment (subscriptionPrice s) value
            else ContentKeyNotSet)).
  { rewrite subscribe_eq, Hg. destruct (contentKeySet s); [|done].
    by destruct (N.ltb_spec value (subscriptionPrice s)); [|lia]. }
  split; [done|]. unfold step, exec. cbn [tx_env tx_sender tx_call].
  by rewrite E.
Qed.

(** C7 (amended). Sent by the owner, [updateSubscriptionParams] fails
    with [InvalidDuration] exactly when the new duration is zero; sent by
    anyone else it fails with [OwnableUnauthorizedAccount]. When it
    succeeds it changes the stored price and duration and nothing else, so
    every expiration stays as it was, and the next [subscribe] is charged
    the new price and granted the new duration. *)
Theorem updateSubscriptionParams_effect sender newPrice newDuration s :
  (sender ≠ owner s ->
     updateSubscriptionParams sender newPrice newDuration s
       = Revert (OwnableUnauthorizedAccount sender)) /\
  (sender = owner s ->
     (updateSubscriptionParams sender newPrice newDuration s
        = Revert InvalidDuration <-> newDuration = 0)) /\
  (forall s' fx,
     updateSubscriptionParams sender newPrice newDuration s
       = Success tt s' fx ->
     s' = set_subscriptionDuration newDuration
            (set_subscriptionPrice newPrice s) /\
     expirationTimestamps s' = expirationTimestamps s /\
     (forall a, expiration s' a = expiration s a) /\
     (forall env who value s'' fx',
        subscribe env who value s' = Success tt s'' fx' ->
        newPrice <= value /\
        expiration s'' who
          = N.max (expiration s who) (timestamp env) + newDuration)).
Proof.
  rewrite updateSubscriptionParams_eq. split; [|split].
  - intros Hne. by destruct (decide (owner s = sender)).
  - intros ->. destruct (decide (owner s = owner s)); [|done].
    destruct (N.eqb_spec newDuration 0); by split.
  - intros s' fx Hx.
    destruct (decide (owner s = sender)); [|done].
    destruct (newDuration =? 0); [done|].
    injection Hx as <- <-.
    split; [done|]. split; [by destruct s|]. split; [by destruct s|].
    intros env who value s'' fx' Hsub. split.
    + apply subscribe_accounting in Hsub. destruct s. state_simpl. tauto.
    + pose proof (exec_expirations env who (Subscribe value) _ _ _ Hsub) as E.
      cbn [grants] in E. unfold expiration at 1.
      rewrite E, expiration_insert.
      destruct (decide (who = who)); [|done]. by destruct s.
Qed.

(** C10 (amended). While the key has not been set, every [subscribe]
    fails with [ContentKeyNotSet] and every [grantSubscription] fails,
    with [ContentKeyNotSet] when the owner sends it and with
    [OwnableUnauthorizedAccount] when anyone else does; no transaction
    writes the expiration table, which is still empty. *)
Theorem no_subscription_before_key env sender s :
  reachable s ->
  contentKeySet s = false ->
  (forall value, subscribe env sender value s = Revert ContentKeyNotSet) /\
  (forall a d,
     grantSubscription env sender a d s =
       Revert (if decide (owner s = sender) then ContentKeyNotSet
               else OwnableUnauthorizedAccount sender)) /\
  (forall c,
     expirationTimestamps (step s (mkTx env sender c))
       = expirationTimestamps s) /\
  expirationTimestamps s = ∅.
Proof.
  intros Hr Hk. destruct (reachable_inv _ Hr) as [Hg _ Hn].
  repeat split.
  - intros value. by rewrite subscribe_eq, Hg, Hk.
  - intros a d. rewrite grantSubscription_eq, Hk. by destruct (decide _).
  - intros c. by apply step_before_key.
  - by apply Hn.
Qed.

End Payments.

Lemma subscribe_underpaid_witness :
  @reachable test_host with_key /\
  10 < subscriptionPrice with_key /\
  subscribe (at_time 5000) alice 10 with_key
    = Revert (InsufficientPayment 100 10).
Proof.
  assert (Hr : @reachable test_host with_key)
    by (apply reach_step,
          (reach_deployed publisher 0 "Newsletter" 100 2592000);
        reflexivity).
  assert (Hlt : 10 < subscriptionPrice with_key) by reflexivity.
  split; [exact Hr|]. split; [exact Hlt|].
  exact (proj1 (@subscribe_underpaid test_host (at_time 5000) alice 10
                  with_key Hr Hlt)).
Defined.

Lemma updateSubscriptionParams_effect_witness :
  publisher = owner with_key /\
  updateSubscriptionParams publisher 5 0 with_key = Revert InvalidDuration.
Proof.
  assert (Ho : publisher = owner with_key) by reflexivity.
  split; [exact Ho|].
  apply (proj2 (proj1 (proj2
           (@updateSubscriptionParams_effect test_host publisher 5 0
              with_key)) Ho)).
  reflexivity.
Defined.

Lemma no_subscription_before_key_witness :
  @reachable test_host deployed /\
  contentKeySet deployed = false /\
  subscribe (at_time 5000) alice 150 deployed = Revert ContentKeyNotSet.
Proof.
  assert (Hr : @reachable test_host deployed)
    by (apply (reach_deployed publisher 0 "Newsletter" 100 2592000);
        reflexivity).
  assert (Hk : contentKeySet deployed = false) by reflexivity.
  split; [exact Hr|]. split; [exact Hk|].
  exact (proj1 (@no_subscription_before_key test_host (at_time 5000) alice
                  deployed Hr Hk) 150).
Defined.

(** ** The specification's scenarios *)

(** Price 100, duration 2,592,000 s, Alice pays 150 at time 5000: she is
    refunded 50, her subscription expires at 5000 + 2,592,000 and is valid
    until then. *)
Example scenario_overpayment :
  transfers (effects_of (subscribe (at_time 5000) alice 150 with_key))
    = [(alice, 50)] /\
  getSubscriptionDetails (at_time 5000) alice_joined alice
    = (5000 + 2592000, true) /\
  _isSubscriptionValid (at_time (5000 + 2592000 - 1)) alice_joined alice = true /\
  _isSubscriptionValid (at_time (5000 + 2592000)) alice_joined alice = false.
Proof. by vm_compute. Qed.

(** Duration 1 s: two seconds after subscribing, the subscription is no
    longer valid and [getContentKey] refuses the subscriber. *)
Example scenario_expiry :
  let short := set_subscriptionDuration 1 with_key in
  let joined := state_after short (subscribe (at_time 5000) alice 100 short) in
  _isSubscriptionValid (at_time 5000) joined alice = true /\
  _isSubscriptionValid (at_time 5002) joined alice = false /\
  getContentKey (at_time 5002) alice joined = inl NoValidSubscription.
Proof. by vm_compute. Qed.

(** * Further properties of the contract *)

(** Rewrites a call into its closed form and splits on its tests. *)
Ltac call_eq :=
  unfold step, exec; cbn [tx_env tx_sender tx_call];
  rewrite ?setContentKey_eq, ?updateSubscriptionParams_eq, ?withdraw_eq,
    ?grantSubscription_eq, ?subscribe_eq, ?transferOwnership_eq,
    ?renounceOwnership_eq, ?createOrExtend_eq.

Ltac call_cases :=
  repeat (first
    [ progress (cbn [state_after effects_of] in * )
    | done
    | match goal with
      | |- context [decide ?P] => destruct (decide P)
      | |- context [if ?b then _ else _] => destruct b eqn:?
      | |- context [match ?o with Some _ => _ | None => _ end] =>
          destruct o eqn:?
      end ]).

Section Ledger.
Context `{Host}.

Lemma checked_add_bound a b c :
  checked_add a b = Some c -> c = a + b /\ c < uint256_modulus.
Proof.
  unfold checked_add. destruct (N.ltb_spec (a + b) uint256_modulus); [|done].
  by intros [= <-].
Qed.

Lemma checked_add_None a b :
  uint256_modulus <= a + b -> checked_add a b = None.
Proof.
  intros Hge. unfold checked_add.
  by destruct (N.ltb_spec (a + b) uint256_modulus); [lia|].
Qed.

(** The access list only grows. *)
Lemma step_acl_mono s t : acl s ⊆ acl (step s t).
Proof.
  destruct t as [env sender []], s as [o g n p d k ks ex tr ac b];
    call_eq; state_simpl; call_cases; set_solver.
Qed.

Lemma run_acl_mono ts s : acl s ⊆ acl (run s ts).
Proof.
  revert s. induction ts as [|t ts IH]; intros s; [done|].
  change (run s (t :: ts)) with (run (step s t) ts).
  etrans; [apply (step_acl_mono s t)|apply IH].
Qed.

(** A successful extension puts the identity on the key's access list. *)
Lemma exec_grants_acl env sender c s s' fx who d :
  exec env sender c s = Success tt s' fx ->
  grants s sender c = Some (who, d) ->
  contentKeySet s' = true /\ contentKey s' = contentKey s /\
  (contentKey s, who) ∈ acl s'.
Proof.
  destruct c; cbn [grants]; try done; intros Hx [= <- <-]; revert Hx;
    destruct s as [o g n p d0 k ks ex tr ac b];
    call_eq; state_simpl; call_cases; intros [= <- <-];
    state_simpl; (split; [done|split; [done|set_solver]]).
Qed.

(** X3. Access to the key is never taken back: whoever a successful
    [subscribe] or [grantSubscription] extended is on the access list of
    the content key after that call and after any transactions that
    follow, whether or not the subscription is still running. *)
Theorem key_access_is_permanent env sender c s s' fx who d ts :
  exec env sender c s = Success tt s' fx ->
  grants s sender c = Some (who, d) ->
  (contentKey (run s' ts), who) ∈ acl (run s' ts).
Proof.
  intros Hx Hg. destruct (exec_grants_acl _ _ _ _ _ _ _ _ Hx Hg)
    as (Hset & Hkey & Hin).
  destruct (run_key_kept ts s' Hset) as [_ ->]. rewrite Hkey.
  by apply (run_acl_mono ts s').
Qed.

(** X4. Whoever is not the owner can change the contract through
    [subscribe] only: any other call of theirs fails with
    [OwnableUnauthorizedAccount] and leaves the state as it was. *)
Theorem stranger_cannot_write env sender c s :
  sender ≠ owner s ->
  (forall v, c ≠ Subscribe v) ->
  exec env sender c s = Revert (OwnableUnauthorizedAccount sender) /\
  step s (mkTx env sender c) = s.
Proof.
  intros Hne Hc.
  assert (E : exec env sender c s = Revert (OwnableUnauthorizedAccount sender)).
  { destruct c; try (by destruct (Hc value)); call_eq;
      by destruct (decide (owner s = sender)). }
  split; [done|]. unfold step. cbn [tx_env tx_sender tx_call]. by rewrite E.
Qed.

(** X2. No ether appears or vanishes in a call, and none goes to a third
    party: after a successful call the balance plus what was sent out is
    the old balance plus what the call brought in, and every payment the
    call made went to its sender. *)
Theorem ether_is_conserved env sender c s s' fx :
  exec env sender c s = Success tt s' fx ->
  balance s' + sent_total fx = balance s + value_of c /\
  (forall to amount, (to, amount) ∈ transfers fx -> to = sender).
Proof.
  destruct c, s as [o g n p d k ks ex tr ac b];
    call_eq; state_simpl; call_cases; intros [= <- <-];
    cbn; (split; [try lia|intros to amount Hin; apply list_elem_of_In in Hin; cbn in Hin; intuition congruence]).
  all: repeat match goal with
       | H : (_ <? _) = _ |- _ => first [apply N.ltb_lt in H | apply N.ltb_ge in H]
       | H : (_ =? _) = _ |- _ => first [apply N.eqb_eq in H | apply N.eqb_neq in H]
       end; lia.
Qed.



(** X6. A successful [subscribe] or [grantSubscription] emits two events:
    [SubscriptionPurchased], with the new expiration and the ether sent,
    when the identity's stored expiration was zero, [SubscriptionRenewed]
    with the new expiration otherwise (also when the old subscription had
    lapsed); then [KeyAccessGranted]. *)
Theorem extension_announces env sender c s s' fx who d :
  exec env sender c s = Success tt s' fx ->
  grants s sender c = Some (who, d) ->
  events fx =
    [ (if expiration s who =? 0
       then SubscriptionPurchased who (expiration s' who) (value_of c)
       else SubscriptionRenewed who (expiration s' who));
      KeyAccessGranted who ].
Proof.
  intros Hx Hg.
  pose proof (exec_expirations _ _ _ _ _ _ Hx) as E. rewrite Hg in E.
  unfold expiration at 2 3. rewrite E, lookup_insert_eq. cbn [default].
  revert Hx. destruct c; cbn [grants] in Hg; try done;
    injection Hg as <- <-; cbn [value_of]; call_eq.
  - destruct (decide _); [|done].
    destruct (contentKeySet s); [|done].
    destruct (checked_add (N.max _ _) _) as [e'|] eqn:He; [|done].
    destruct (checked_add (totalRevenue s) 0) as [r|]; [|done].
    apply checked_add_Some in He. subst e'. by intros [= <- <-].
  - destruct (reentrancyEntered s); [done|].
    destruct (contentKeySet s); [|done].
    destruct (value <? subscriptionPrice s); [done|].
    destruct (checked_add (N.max _ _) _) as [e'|] eqn:He; [|done].
    destruct (checked_add (totalRevenue s) value) as [r|]; [|done].
    apply checked_add_Some in He. subst e'. cbn zeta.
    destruct (subscriptionPrice s <? value).
    + destruct (accepts env sender _); [|done]. by intros [= <- <-].
    + by intros [= <- <-].
Qed.

Lemma step_bounded s t : uint256_bounded s -> uint256_bounded (step s t).
Proof.
  intros [Hrev Hexp].
  assert (Hrev' : totalRevenue (step s t) < uint256_modulus).
  { revert Hrev. destruct t as [env sender []], s as [o g n p d k ks ex tr ac b];
      call_eq; state_simpl; call_cases; intros _;
      repeat match goal with
      | H : checked_add _ _ = Some _ |- _ =>
          apply checked_add_bound in H as [? ?]
      end; done. }
  split; [done|]. intros a.
  destruct t as [env sender c]. unfold step. cbn [tx_env tx_sender tx_call].
  destruct (exec env sender c s) as [[] s' fx|] eqn:Hx; [|apply Hexp].
  cbn [state_after]. unfold expiration.
  rewrite (exec_expirations _ _ _ _ _ _ Hx).
  destruct (grants s sender c) as [[who d]|] eqn:Hg; [|apply Hexp].
  rewrite expiration_insert. destruct (decide (who = a)); [|apply Hexp].
  revert Hx. destruct c; cbn [grants] in Hg; try done;
    injection Hg as <- <-; call_eq.
  - destruct (decide _); [|done].
    destruct (contentKeySet s); [|done].
    destruct (checked_add (N.max _ _) _) as [e'|] eqn:He; [|done].
    apply checked_add_bound in He as [-> ?]. done.
  - destruct (reentrancyEntered s); [done|].
    destruct (contentKeySet s); [|done].
    destruct (value <? subscriptionPrice s); [done|].
    destruct (checked_add (N.max _ _) _) as [e'|] eqn:He; [|done].
    apply checked_add_bound in He as [-> ?]. done.
Qed.

(** X7. In every state a deployed contract can reach, the revenue
    counter and every expiration timestamp are below 2^256: the checked
    additions never let a stored value wrap around. *)
Theorem counters_fit_uint256 s : reachable s -> uint256_bounded s.
Proof.
  induction 1 as [sender funds nm price duration s Hc|s t _ IH|s amount _ IH].
  - unfold constructor in Hc.
    destruct (decide (sender = 0)); [done|].
    destruct (duration =? 0); [done|].
    injection Hc as <-. split; [done|]. intros a. unfold expiration. cbn.
    by rewrite lookup_empty.
  - by apply step_bounded.
  - by destruct s.
Qed.

(** X8. A [grantSubscription] by the owner whose duration would take the
    expiration to 2^256 or beyond fails with the arithmetic panic and
    changes nothing. *)
Theorem grant_overflow_reverts env a d s :
  contentKeySet s = true ->
  uint256_modulus <= N.max (expiration s a) (timestamp env) + d ->
  grantSubscription env (owner s) a d s = Revert Panic_overflow /\
  step s (mkTx env (owner s) (GrantSubscription a d)) = s.
Proof.
  intros Hk Hbig.
  assert (E : grantSubscription env (owner s) a d s = Revert Panic_overflow).
  { rewrite grantSubscription_eq, createOrExtend_eq, Hk.
    destruct (decide (owner s = owner s)); [|done].
    by rewrite (checked_add_None _ _ Hbig). }
  split; [done|]. unfold step, exec. cbn [tx_env tx_sender tx_call].
  by rewrite E.
Qed.

(** X9. Time that was paid for cannot be cut short: after a successful
    [subscribe] at time [T], and whatever transactions follow, the
    subscriber is valid and [getContentKey] hands out the key at every
    time before [T] plus the duration that was in force. *)
Theorem paid_time_cannot_be_cut env sender value s s' fx ts env' :
  subscribe env sender value s = Success tt s' fx ->
  timestamp env' < timestamp env + subscriptionDuration s ->
  _isSubscriptionValid env' (run s' ts) sender = true /\
  getContentKey env' sender (run s' ts) = inr (contentKey s').
Proof.
  intros Hx Hlt.
  pose proof (exec_expirations env sender (Subscribe value) _ _ _ Hx) as E.
  cbn [grants] in E.
  assert (He : timestamp env' < expiration (run s' ts) sender).
  { apply N.lt_le_trans with (expiration s' sender);
      [|apply run_expiration_mono].
    unfold expiration at 1. rewrite E, lookup_insert_eq. cbn [default id]. lia. }
  assert (Hset : contentKeySet s' = true)
    by (by destruct (exec_grants_acl env sender (Subscribe value) s s' fx
                       sender (subscriptionDuration s) Hx)).
  destruct (run_key_kept ts s' Hset) as [_ Hkey].
  assert (Hv : _isSubscriptionValid env' (run s' ts) sender = true)
    by (by apply N.ltb_lt).
  split; [done|]. rewrite getContentKey_eq, Hkey.
  destruct (decide _); [done|].
  unfold _isSubscriptionValid in Hv. by rewrite Hv.
Qed.

(** X10. [getSubscriptionDetails] returns the stored expiration and
    whether it lies after now, (0, false) for an identity that never
    subscribed, and it predicts the gate: [getContentKey] fails with
    [NoValidSubscription] exactly when the details say not valid and the
    caller is not the owner. *)
Theorem details_predict_the_gate env sender s :
  getSubscriptionDetails env s sender
    = (expiration s sender, bool_decide (timestamp env < expiration s sender)) /\
  (getContentKey env sender s = inl NoValidSubscription <->
   (getSubscriptionDetails env s sender).2 = false /\ sender ≠ owner s) /\
  (expirationTimestamps s !! sender = None ->
   getSubscriptionDetails env s sender = (0, false)).
Proof.
  unfold getSubscriptionDetails, _isSubscriptionValid. cbn [snd].
  split; [|split].
  - f_equal. destruct (N.ltb_spec (timestamp env) (expiration s sender)).
    + by rewrite bool_decide_eq_true_2.
    + rewrite bool_decide_eq_false_2; [done|lia].
  - rewrite getContentKey_eq.
    destruct (decide (sender = owner s));
      destruct (timestamp env <? expiration s sender);
      (split; [intros ?|intros [? ?]]); done.
  - intros Hn. unfold expiration. rewrite Hn. cbn [default].
    f_equal. apply N.ltb_ge. lia.
Qed.

(** X11. A [subscribe] that overpays never succeeds when the sender's
    account refuses the refund: the state stays as it was, and when
    nothing else stops the call the error is "Refund failed". *)
Theorem refund_refused_reverts env sender value s :
  subscriptionPrice s < value ->
  accepts env sender (value - subscriptionPrice s) = false ->
  (forall s' fx, subscribe env sender value s ≠ Success tt s' fx) /\
  step s (mkTx env sender (Subscribe value)) = s /\
  (reachable s -> contentKeySet s = true ->
   N.max (expiration s sender) (timestamp env) + subscriptionDuration s
     < uint256_modulus ->
   totalRevenue s + value < uint256_modulus ->
   subscribe env sender value s = Revert (Error_string "Refund failed")).
Proof.
  intros Hlt Ha.
  assert (E : exists e, subscribe env sender value s = Revert e).
  { rewrite subscribe_eq.
    destruct (reentrancyEntered s); [eauto|].
    destruct (contentKeySet s); [|eauto].
    destruct (value <? subscriptionPrice s); [eauto|].
    destruct (checked_add (N.max _ _) _); [|eauto].
    destruct (checked_add (totalRevenue s) value); [|eauto]. cbn zeta.
    destruct (N.ltb_spec (subscriptionPrice s) value); [|lia].
    rewrite Ha. eauto. }
  destruct E as [e E]. split; [|split].
  - intros s' fx. by rewrite E.
  - unfold step, exec. cbn [tx_env tx_sender tx_call]. by rewrite E.
  - intros Hr Hk He Hv. destruct (reachable_inv _ Hr) as [Hg _ _].
    rewrite subscribe_eq, Hg, Hk.
    destruct (N.ltb_spec value (subscriptionPrice s)); [lia|].
    unfold checked_add.
    destruct (N.ltb_spec (N.max (expiration s sender) (timestamp env)
                            + subscriptionDuration s) uint256_modulus); [|lia].
    destruct (N.ltb_spec (totalRevenue s + value) uint256_modulus); [|lia].
    cbn zeta. destruct (N.ltb_spec (subscriptionPrice s) value); [|lia].
    by rewrite Ha.
Qed.

(** X12. On a deployed contract the duration is positive, so a
    successful [subscribe] always buys time: the new expiration is at
    least the duration after now and at least the duration after the old
    expiration, and the subscriber is valid right away. *)
Theorem subscribe_buys_time env sender value s s' fx :
  reachable s ->
  subscribe env sender value s = Success tt s' fx ->
  0 < subscriptionDuration s /\
  timestamp env + subscriptionDuration s <= expiration s' sender /\
  expiration s sender + subscriptionDuration s <= expiration s' sender /\
  _isSubscriptionValid env s' sender = true.
Proof.
  intros Hr Hx. destruct (reachable_inv _ Hr) as [_ Hd _].
  pose proof (exec_expirations env sender (Subscribe value) _ _ _ Hx) as E.
  cbn [grants] in E. unfold _isSubscriptionValid.
  unfold expiration at 1 3 4. rewrite E, lookup_insert_eq. cbn [default id].
  repeat split; try lia. apply N.ltb_lt. lia.
Qed.

End Ledger.


(** ** The properties above, on the test deployment *)

Lemma alice_joined_reachable : @reachable test_host alice_joined.
Proof.
  do 2 apply reach_step.
  by apply (reach_deployed publisher 0 "Newsletter" 100 2592000).
Qed.

Lemma overpaid_tx_succeeds :
  @exec test_host (at_time 5000) alice (Subscribe 150) with_key
    = Success tt alice_joined
        (effects_of (subscribe (at_time 5000) alice 150 with_key)).
Proof. vm_compute. reflexivity. Qed.


Lemma ether_is_conserved_witness :
  @exec test_host (at_time 5000) alice (Subscribe 150) with_key
    = Success tt alice_joined
        (effects_of (subscribe (at_time 5000) alice 150 with_key)) /\
  balance alice_joined
    + sent_total (effects_of (subscribe (at_time 5000) alice 150 with_key))
    = balance with_key + 150.
Proof.
  split; [exact overpaid_tx_succeeds|].
  exact (proj1 (@ether_is_conserved test_host _ _ _ _ _ _
                  overpaid_tx_succeeds)).
Defined.

Lemma key_access_is_permanent_witness :
  @exec test_host (at_time 5000) alice (Subscribe 150) with_key
    = Success tt alice_joined
        (effects_of (subscribe (at_time 5000) alice 150 with_key)) /\
  grants with_key alice (Subscribe 150) = Some (alice, 2592000) /\
  (contentKey alice_joined, alice)
    ∈ acl (@run test_host alice_joined
             [mkTx (at_time 9000000) publisher (UpdateSubscriptionParams 5 60)]).
Proof.
  split; [exact overpaid_tx_succeeds|]. split; [reflexivity|].
  exact (@key_access_is_permanent test_host _ _ _ _ _ _ alice 2592000
           [mkTx (at_time 9000000) publisher (UpdateSubscriptionParams 5 60)]
           overpaid_tx_succeeds eq_refl).
Defined.

Lemma stranger_cannot_write_witness :
  alice ≠ owner with_key /\
  (forall v, UpdateSubscriptionParams 0 1 ≠ Subscribe v) /\
  @exec test_host (at_time 5000) alice (UpdateSubscriptionParams 0 1) with_key
    = Revert (OwnableUnauthorizedAccount alice).
Proof.
  assert (Hne : alice ≠ owner with_key) by (vm_compute; discriminate).
  assert (Hc : forall v, UpdateSubscriptionParams 0 1 ≠ Subscribe v)
    by (intros v; discriminate).
  split; [exact Hne|]. split; [exact Hc|].
  exact (proj1 (@stranger_cannot_write test_host (at_time 5000) alice _
                  with_key Hne Hc)).
Defined.


Lemma extension_announces_witness :
  @exec test_host (at_time 5000) alice (Subscribe 150) with_key
    = Success tt alice_joined
        (effects_of (subscribe (at_time 5000) alice 150 with_key)) /\
  grants with_key alice (Subscribe 150) = Some (alice, 2592000) /\
  events (effects_of (subscribe (at_time 5000) alice 150 with_key))
    = [SubscriptionPurchased alice 2597000 150; KeyAccessGranted alice].
Proof.
  split; [exact overpaid_tx_succeeds|]. split; [reflexivity|].
  exact (@extension_announces test_host _ _ _ _ _ _ alice 2592000
           overpaid_tx_succeeds eq_refl).
Defined.

Lemma counters_fit_uint256_witness :
  @reachable test_host alice_joined /\ uint256_bounded alice_joined.
Proof.
  split; [exact alice_joined_reachable|].
  exact (@counters_fit_uint256 test_host alice_joined alice_joined_reachable).
Defined.

Lemma grant_overflow_reverts_witness :
  contentKeySet with_key = true /\
  uint256_modulus
    <= N.max (expiration with_key bob) 5000 + (uint256_modulus - 1) /\
  grantSubscription (at_time 5000) publisher bob (uint256_modulus - 1) with_key
    = Revert Panic_overflow.
Proof.
  assert (Hk : contentKeySet with_key = true) by reflexivity.
  assert (Hbig : uint256_modulus
    <= N.max (expiration with_key bob) (timestamp (at_time 5000))
       + (uint256_modulus - 1)) by (vm_compute; discriminate).
  split; [exact Hk|]. split; [exact Hbig|].
  exact (proj1 (@grant_overflow_reverts test_host (at_time 5000) bob
                  (uint256_modulus - 1) with_key Hk Hbig)).
Defined.

Lemma paid_time_cannot_be_cut_witness :
  subscribe (at_time 5000) alice 150 with_key
    = Success tt alice_joined
        (effects_of (subscribe (at_time 5000) alice 150 with_key)) /\
  2596999 < 5000 + subscriptionDuration with_key /\
  getContentKey (at_time 2596999) alice
    (@run test_host alice_joined
       [mkTx (at_time 6000) publisher (UpdateSubscriptionParams 5 1)])
    = inr (contentKey alice_joined).
Proof.
  assert (Hlt : timestamp (at_time 2596999)
                < timestamp (at_time 5000) + subscriptionDuration with_key)
    by reflexivity.
  split; [exact overpaid_tx_succeeds|]. split; [exact Hlt|].
  exact (proj2 (@paid_time_cannot_be_cut test_host _ _ _ _ _ _
           [mkTx (at_time 6000) publisher (UpdateSubscriptionParams 5 1)]
           (at_time 2596999) overpaid_tx_succeeds Hlt)).
Defined.

Lemma refund_refused_reverts_witness :
  subscriptionPrice with_key < 150 /\
  accepts refusing alice (150 - subscriptionPrice with_key) = false /\
  @step test_host with_key (mkTx refusing alice (Subscribe 150)) = with_key.
Proof.
  assert (Hlt : subscriptionPrice with_key < 150) by reflexivity.
  assert (Ha : accepts refusing alice (150 - subscriptionPrice with_key) = false)
    by reflexivity.
  split; [exact Hlt|]. split; [exact Ha|].
  exact (proj1 (proj2 (@refund_refused_reverts test_host refusing alice 150
                         with_key Hlt Ha))).
Defined.

Lemma subscribe_buys_time_witness :
  @reachable test_host with_key /\
  subscribe (at_time 5000) alice 150 with_key
    = Success tt alice_joined
        (effects_of (subscribe (at_time 5000) alice 150 with_key)) /\
  5000 + subscriptionDuration with_key <= expiration alice_joined alice.
Proof.
  assert (Hr : @reachable test_host with_key)
    by (apply reach_step,
          (reach_deployed publisher 0 "Newsletter" 100 2592000);
        reflexivity).
  split; [exact Hr|]. split; [exact overpaid_tx_succeeds|].
  exact (proj1 (proj2 (@subscribe_buys_time test_host _ _ _ _ _ _
                         Hr overpaid_tx_succeeds))).
Defined.

(** * Properties of the handshake *)

Module HandshakeFacts.
Import Handshake HandshakeOutcome.

(** Splits membership in a list written out, keeping the entries that match. *)
Ltac elem_cases :=
  repeat match goal with
  | H : _ ∈ [] |- _ => by apply elem_of_nil in H
  | H : _ ∈ _ :: _ |- _ => apply elem_of_cons in H as [H|H]
  | H : @eq Obs _ _ |- _ => first [discriminate H | injection H as ?; subst]
  end.

Lemma request_trace_well_formed c h present ka now ea sa ua ra :
  well_formed_request c h (request_trace c h present ka now ea sa ua ra).
Proof.
  unfold well_formed_request, request_trace.
  destruct present, ka as [?|kp], ea as [?|eip], sa as [?|sig], ua as [?|user];
    (split; [|split; [|split]]); intros; elem_cases;
    try reflexivity;
    try (do 3 eexists; repeat split; reflexivity);
    try (exists (publicKey kp), [c], (startTimeStamp_of now), "10", eip;
         split; [set_solver|done]).
  exists kp, now, (domain eip), (types_UserDecryptRequestVerification eip),
    (message eip), sig.
  repeat split; try reflexivity; set_solver.
Qed.

(** Runs the code against an arbitrary environment and hands every way the
    run can end to [tac]. *)
Ltac walk env w tac :=
  cbn [mbind Prog_bind pbind try_catch ask call interact];
  let w1 := fresh "w" in
  destruct (env _ GetFheInstance w) as [[] w1] eqn:?;
  [ cbn [negb pbind try_catch interact];
    let w2 := fresh "w" in let kp := fresh "kp" in let ex := fresh "ex" in
    destruct (env _ GenerateKeypair w1) as [[ex|kp] w2]; [tac|];
    cbn [pbind try_catch interact];
    let w3 := fresh "w" in let now := fresh "now" in
    destruct (env _ DateNow w2) as [now w3];
    cbn [pbind try_catch interact];
    let w4 := fresh "w" in let eip := fresh "eip" in
    destruct (env _ (CreateEIP712 _ _ _ _) w3) as [[ex|eip] w4]; [tac|];
    cbn [pbind try_catch interact];
    let w5 := fresh "w" in let sig := fresh "sig" in
    destruct (env _ (SignTypedData _ _ _) w4) as [[ex|sig] w5]; [tac|];
    cbn [pbind try_catch interact];
    let w6 := fresh "w" in let user := fresh "user" in
    destruct (env _ GetAddress w5) as [[ex|user] w6]; [tac|];
    cbn [pbind try_catch interact];
    let w7 := fresh "w" in let res := fresh "res" in
    destruct (env _ (UserDecrypt _ _ _ _ _ _ _ _) w6) as [[ex|res] w7];
    [tac|tac]
  | tac ].

(** One way a run ends: the calls made are those of a request, and a run
    that returned made them all. *)
Ltac request_end :=
  cbn [negb pbind try_catch interact];
  repeat match goal with
  | |- context [match ?e with JsError _ => _ | Thrown => _ end] => destruct e
  | |- context [if ?a || ?b then _ else _] => destruct (a || b)
  end;
  cbn [fst snd];
  (split;
     [ first [ by exists (inl Thrown), 0, (inl Thrown), (inl Thrown),
                 (inl Thrown), (inl Thrown)
             | do 6 eexists;
               repeat (apply (f_equal2 cons); [reflexivity|]); reflexivity ]
     | let v := fresh "v" in let Hv := fresh "Hv" in
       intros v Hv;
       first [discriminate Hv | injection Hv as <-; eauto 10] ]).

Lemma requestUserDecryption_run {W} (env : World W) w c h :
  issues_request c h (env _ GetFheInstance w).1
    (trace env (requestUserDecryption c h) w) /\
  (forall v, outcome env (requestUserDecryption c h) w = inr v ->
     exists res,
       completed_request c h res (trace env (requestUserDecryption c h) w) /\
       v = res !! h).
Proof.
  unfold issues_request, completed_request, trace, outcome,
    requestUserDecryption, request_trace.
  walk env w request_end.
  Unshelve. all: first [exact 0 | exact (inl Thrown)].
Qed.

Lemma decryptValue_run {W} (env : World W) w c h :
  issues_request c h (env _ GetFheInstance w).1
    (trace env (decryptValue h c) w) /\
  (forall v, outcome env (decryptValue h c) w = inr v ->
     exists res,
       completed_request c h res (trace env (decryptValue h c) w) /\
       v = Number (res !! h)).
Proof.
  unfold issues_request, completed_request, trace, outcome,
    decryptValue, request_trace.
  walk env w request_end.
  Unshelve. all: first [exact 0 | exact (inl Thrown)].
Qed.



(** Two requests in a row against the test environment: each is issued
    at second 1700000000 for 10 days, each under a keypair of its own. *)
Example two_requests :
  let p := requestUserDecryption "0xC0FFEE" "0xBEEF" in
  let '(tr1, r1, w1) := interact test_world p 0 in
  let '(tr2, r2, w2) := interact test_world p w1 in
  r1 = inr (Some 42) /\
  generated tr1 = [mkKeypair "pk0" "sk0"] /\
  generated tr2 = [mkKeypair "pk1" "sk1"] /\
  last tr1 = Some (ObsUserDecrypt [mkPair "0xBEEF" "0xC0FFEE"] "sk0" "pk0"
                     "signed:pk0@1700000000+10" ["0xC0FFEE"] "0xA11CE"
                     "1700000000" "10" (inr {[ "0xBEEF" := 42 ]})).
Proof. vm_compute. done. Qed.

End HandshakeFacts.

(** * Further properties of the handshake *)

Module HandshakeOutcomeFacts.
Import Handshake HandshakeOutcome HandshakeFacts.

(** X13. Without an initialised SDK instance neither
    [requestUserDecryption] nor [decryptValue] calls the SDK, the wallet
    or the clock: the run consists of the instance check alone and ends
    with the function's "not initialized" error. *)
Theorem uninitialised_sdk_makes_no_call {W} (env : World W) w c h :
  (env _ GetFheInstance w).1 = false ->
  trace env (requestUserDecryption c h) w = [ObsInstance false] /\
  outcome env (requestUserDecryption c h) w
    = inl (JsError "FHEVM not initialized") /\
  trace env (decryptValue h c) w = [ObsInstance false] /\
  outcome env (decryptValue h c) w
    = inl (JsError
        "FHE instance not initialized. Call initializeFheInstance() first.").
Proof.
  unfold trace, outcome, requestUserDecryption, decryptValue.
  cbn [mbind Prog_bind pbind try_catch ask call interact].
  destruct (env _ GetFheInstance w) as [[] w1]; [done|]. by intros _.
Qed.

(** X14. [requestUserDecryption] stops at the first call that fails and
    throws what that call threw, unchanged: a failure is always the last
    call of the run. When every call succeeds it returns what the relayer
    revealed under the handle, which is [undefined] when the answer has no
    such entry. *)
Theorem request_passes_failures_on {W} (env : World W) w c h :
  let tr := trace env (requestUserDecryption c h) w in
  match outcome env (requestUserDecryption c h) w with
  | inl e =>
      (tr = [ObsInstance false] /\ e = JsError "FHEVM not initialized") \/
      last tr ≫= failure = Some e
  | inr v => exists res, last tr ≫= revealed = Some res /\ v = res !! h
  end /\
  (forall i o, tr !! i = Some o -> is_Some (failure o) ->
     S i = length tr).
Proof.
  unfold trace, outcome, requestUserDecryption.
  walk env w ltac:(cbn; split; [eauto|];
    intros i o Hi [e He];
    repeat (destruct i as [|i]; [injection Hi as <-; try discriminate He|
                                 cbn in Hi]); done).
Qed.

(** X15. [decryptValue] reports the failure of any of its calls, the
    wallet's included, as "Decryption service is temporarily unavailable"
    when the message mentions "Failed to fetch" or "NetworkError", and
    rethrows it unchanged otherwise; when every call succeeds it returns
    [Number] of what the relayer revealed under the handle. *)
Theorem decryptValue_reports_failures {W} (env : World W) w c h :
  let tr := trace env (decryptValue h c) w in
  match outcome env (decryptValue h c) w with
  | inl e =>
      (tr = [ObsInstance false] /\
       e = JsError
         "FHE instance not initialized. Call initializeFheInstance() first.") \/
      exists e0, last tr ≫= failure = Some e0 /\ e = reported e0
  | inr v => exists res, last tr ≫= revealed = Some res /\ v = Number (res !! h)
  end.
Proof.
  unfold trace, outcome, decryptValue.
  walk env w ltac:(
    cbn [negb pbind try_catch interact];
    try match goal with
        | ex : exn |- _ => destruct ex as [msg|];
            [destruct (includes msg "Failed to fetch"
                       || includes msg "NetworkError") eqn:Hm|]
        end;
    cbn;
    first [ by eauto 10
          | right; eexists; split; [reflexivity|];
            unfold reported; by rewrite ?Hm ]).
Qed.

Lemma uninitialised_sdk_makes_no_call_witness :
  (bare_world _ GetFheInstance 0).1 = false /\
  trace bare_world (requestUserDecryption "0xC0FFEE" "0xBEEF") 0
    = [ObsInstance false].
Proof.
  assert (Hb : (bare_world _ GetFheInstance 0).1 = false) by reflexivity.
  split; [exact Hb|].
  exact (proj1 (uninitialised_sdk_makes_no_call bare_world 0
                  "0xC0FFEE" "0xBEEF" Hb)).
Defined.

End HandshakeOutcomeFacts.

(** * Properties of the content envelope *)

Module CryptoFacts.
Import Crypto.


(** Induction over a list three elements at a time. *)
Lemma list_ind3 {A} (P : list A -> Prop) :
  P [] -> (forall a, P [a]) -> (forall a b, P [a; b]) ->
  (forall a b c l, P l -> P (a :: b :: c :: l)) ->
  forall l, P l.
Proof.
  intros H0 H1 H2 H3 l.
  enough (P l /\ (forall a, P (a :: l)) /\ (forall a b, P (a :: b :: l)))
    by tauto.
  induction l as [|x l (IH0 & IH1 & IH2)]; [by auto|].
  split; [apply IH1|]. split; [intros a; apply IH2|].
  intros a b. by apply H3.
Qed.

Ltac range_cases :=
  repeat first [ case N.leb_spec | case N.ltb_spec | case N.eqb_spec ];
  intros; cbn [andb orb negb]; try lia; try done.

(** A property of the numbers below [n], checked one by one. *)
Lemma below_by_cases (n : nat) (P : N -> bool) :
  forallb P (map N.of_nat (seq 0 n)) = true ->
  forall v, v < N.of_nat n -> P v = true.
Proof.
  intros Hall v Hv. rewrite forallb_forall in Hall. apply Hall.
  apply in_map_iff. exists (N.to_nat v). split; [lia|].
  apply in_seq. lia.
Qed.

Lemma base64_value_char v : v < 64 -> base64_value (base64_char v) = Some v.
Proof.
  intros Hv.
  pose proof (below_by_cases 64
    (fun v => bool_decide (base64_value (base64_char v) = Some v))) as H.
  cbv beta in H. rewrite <- bool_decide_eq_true. apply H; [|done].
  by vm_compute.
Qed.

Lemma base64_char_range v :
  v < 64 -> 43 <= base64_char v <= 122 /\ base64_char v ≠ 61.
Proof. intros Hv. unfold base64_char. range_cases. Qed.

Lemma base64_char_not_space v :
  v < 64 -> is_ascii_whitespace (base64_char v) = false.
Proof.
  intros Hv. destruct (base64_char_range v Hv) as [Hr _].
  unfold is_ascii_whitespace. cbn [existsb]. range_cases.
Qed.

Lemma padding_step (a b c : N) l : padding (a :: b :: c :: l) = padding l.
Proof.
  unfold padding. cbn [length].
  replace (S (S (S (length l))) mod 3)%nat with (length l mod 3)%nat; [done|].
  change (S (S (S (length l)))) with (3 + length l)%nat.
  rewrite <- (Nat.Div0.add_mod_idemp_l 3). done.
Qed.

Lemma base64_encode_split bs :
  base64_encode bs = map base64_char (sextets bs) ++ padding bs.
Proof.
  induction bs as [|a|a b|a b c l IH] using list_ind3; try done.
  rewrite padding_step. cbn [base64_encode sextets map app]. by rewrite IH.
Qed.

Lemma sextets_bounded bs :
  Forall (fun b => b < 256) bs -> Forall (fun v => v < 64) (sextets bs).
Proof.
  induction bs as [|a|a b|a b c l IH] using list_ind3; intros Hb.
  - constructor.
  - apply Forall_cons_1 in Hb as [Ha _]. cbn [sextets].
    repeat constructor; [apply N.Div0.div_lt_upper_bound; lia|].
    pose proof (N.mod_upper_bound a 4). lia.
  - apply Forall_cons_1 in Hb as [Ha Hb].
    apply Forall_cons_1 in Hb as [Hb _]. cbn [sextets].
    pose proof (N.mod_upper_bound a 4). pose proof (N.mod_upper_bound b 16).
    assert (b / 16 < 16) by (apply N.Div0.div_lt_upper_bound; lia).
    repeat constructor; [apply N.Div0.div_lt_upper_bound; lia|lia|lia].
  - apply Forall_cons_1 in Hb as [Ha Hb].
    apply Forall_cons_1 in Hb as [Hb Hc].
    apply Forall_cons_1 in Hc as [Hc Hl]. cbn [sextets].
    pose proof (N.mod_upper_bound a 4). pose proof (N.mod_upper_bound b 16).
    pose proof (N.mod_upper_bound c 64).
    assert (b / 16 < 16) by (apply N.Div0.div_lt_upper_bound; lia).
    assert (c / 64 < 4) by (apply N.Div0.div_lt_upper_bound; lia).
    repeat (apply Forall_cons_2); try lia; [|by apply IH].
    apply N.Div0.div_lt_upper_bound; lia.
Qed.

Lemma decode_sextets bs :
  Forall (fun b => b < 256) bs -> decode_groups (sextets bs) = bs.
Proof.
  induction bs as [|a|a b|a b c l IH] using list_ind3; intros Hb.
  - done.
  - cbn [sextets decode_groups]. f_equal.
    pose proof (N.div_mod a 4). pose proof (N.mod_upper_bound a 4).
    rewrite N.div_mul by lia. lia.
  - apply Forall_cons_1 in Hb as [Ha Hb].
    apply Forall_cons_1 in Hb as [Hb _].
    cbn [sextets decode_groups].
    assert (b / 16 < 16) by (apply N.Div0.div_lt_upper_bound; lia).
    rewrite N.div_add_l, (N.div_small (b / 16) 16) by lia.
    rewrite N.Div0.add_mod, N.Div0.mod_mul, N.add_0_l, N.Div0.mod_mod.
    rewrite (N.mod_small (b / 16) 16) by lia.
    rewrite N.div_mul by lia.
    pose proof (N.div_mod a 4). pose proof (N.div_mod b 16).
    f_equal; [lia|]. f_equal. lia.
  - apply Forall_cons_1 in Hb as [Ha Hb].
    apply Forall_cons_1 in Hb as [Hb Hc].
    apply Forall_cons_1 in Hc as [Hc Hl].
    cbn [sextets decode_groups]. rewrite (IH Hl).
    assert (b / 16 < 16) by (apply N.Div0.div_lt_upper_bound; lia).
    assert (c / 64 < 4) by (apply N.Div0.div_lt_upper_bound; lia).
    rewrite N.div_add_l, (N.div_small (b / 16) 16) by lia.
    rewrite N.Div0.add_mod, N.Div0.mod_mul, N.add_0_l, N.Div0.mod_mod.
    rewrite (N.mod_small (b / 16) 16) by lia.
    rewrite N.div_add_l, (N.div_small (c / 64) 4) by lia.
    rewrite (N.Div0.add_mod (b mod 16 * 4)), N.Div0.mod_mul, N.add_0_l,
      N.Div0.mod_mod.
    rewrite (N.mod_small (c / 64) 4) by lia.
    pose proof (N.div_mod a 4). pose proof (N.div_mod b 16).
    pose proof (N.div_mod c 64).
    f_equal; [lia|]. f_equal; [lia|]. f_equal. lia.
Qed.

Lemma sextets_length bs :
  (length (sextets bs) mod 4 ≠ 1)%nat /\
  (length (base64_encode bs) mod 4 = 0)%nat.
Proof.
  induction bs as [|a|a b|a b c l [IH1 IH2]] using list_ind3; try done.
  cbn [sextets base64_encode length].
  change (S (S (S (S (length (sextets l))))))
    with (4 + length (sextets l))%nat.
  change (S (S (S (S (length (base64_encode l))))))
    with (4 + length (base64_encode l))%nat.
  by rewrite <- !(Nat.Div0.add_mod_idemp_l 4).
Qed.

Lemma strip_padding_clean (x : jsstring) :
  Forall (fun c => c ≠ 61) x -> strip_padding x = x.
Proof.
  intros Hx. unfold strip_padding.
  destruct (rev x) as [|c1 r1] eqn:Hr; [done|].
  assert (Hin : In c1 x) by (apply in_rev; rewrite Hr; by left).
  assert (Hc : c1 ≠ 61) by (by apply (proj1 (List.Forall_forall _ _) Hx)).
  by destruct (N.eqb_spec c1 61).
Qed.

Lemma strip_padding_padded (x : jsstring) bs :
  Forall (fun c => c ≠ 61) x -> strip_padding (x ++ padding bs) = x.
Proof.
  intros Hx. unfold padding.
  destruct (length bs mod 3)%nat as [|[|[|n]]].
  - rewrite app_nil_r. by apply strip_padding_clean.
  - unfold strip_padding. rewrite rev_app_distr. cbn [rev app].
    cbn [N.eqb Pos.eqb]. apply rev_involutive.
  - unfold strip_padding. rewrite rev_app_distr. cbn [rev app].
    cbn [N.eqb Pos.eqb].
    destruct (rev x) as [|c2 r2] eqn:Hr.
    + rewrite <- (rev_involutive x), Hr. done.
    + assert (Hin : In c2 x) by (apply in_rev; rewrite Hr; by left).
      assert (Hc : c2 ≠ 61)
        by (by apply (proj1 (List.Forall_forall _ _) Hx)).
      destruct (N.eqb_spec c2 61); [done|].
      by rewrite <- Hr, rev_involutive.
  - rewrite app_nil_r. by apply strip_padding_clean.
Qed.

Lemma mapM_base64_value vs :
  Forall (fun v => v < 64) vs ->
  mapM base64_value (map base64_char vs) = Some vs.
Proof.
  intros Hv. apply mapM_Some_2.
  induction Hv as [|v vs Hv _ IH]; constructor; [|done].
  by apply base64_value_char.
Qed.

Lemma filter_keeps_all {A} (P : A -> Prop) `{forall x, Decision (P x)} l :
  Forall P l -> filter P l = l.
Proof.
  induction 1 as [|x l Hx _ IH]; [done|].
  by rewrite filter_cons_True, IH.
Qed.

(** Decoding undoes encoding, for every sequence of byte values. *)
Lemma atob_base64_encode bs :
  Forall (fun b => b < 256) bs -> atob (base64_encode bs) = Some bs.
Proof.
  intros Hb. pose proof (sextets_bounded bs Hb) as Hv.
  assert (Hchars : Forall (fun c => c ≠ 61) (map base64_char (sextets bs))).
  { apply Forall_map. eapply Forall_impl; [exact Hv|].
    intros v Hlt. by apply base64_char_range. }
  unfold atob. rewrite filter_keeps_all.
  2:{ rewrite base64_encode_split. apply Forall_app. split.
      - apply Forall_map. eapply Forall_impl; [exact Hv|].
        intros v Hlt. by apply base64_char_not_space.
      - unfold padding. by destruct (length bs mod 3)%nat as [|[|[|n]]];
          repeat constructor. }
  destruct (sextets_length bs) as [Hs He]. rewrite He. cbn [Nat.eqb].
  rewrite base64_encode_split, strip_padding_padded by done.
  rewrite length_map.
  destruct (Nat.eqb_spec (length (sextets bs) mod 4) 1); [done|].
  rewrite mapM_base64_value by done. cbn. by rewrite decode_sextets.
Qed.

Lemma to_uint8_byte b : to_uint8 (Some (Z.of_N (Byte.to_N b))) = b.
Proof.
  unfold to_uint8. pose proof (Byte.to_N_bounded b).
  rewrite Z.mod_small by lia. by rewrite N2Z.id, Byte.of_to_N.
Qed.

Lemma bytes_bounded (bs : list byte) :
  Forall (fun b => b < 256) (map Byte.to_N bs).
Proof.
  apply Forall_map, Forall_forall. intros b _.
  pose proof (Byte.to_N_bounded b). cbn. lia.
Qed.

Lemma bytesToBase64_eq bytes :
  bytesToBase64 bytes = Some (base64_encode (map Byte.to_N bytes)).
Proof.
  unfold bytesToBase64, btoa.
  assert (E : map (fun b => fromCharCode (Byte.to_N b)) bytes
              = map Byte.to_N bytes).
  { apply map_ext. intros b. pose proof (Byte.to_N_bounded b).
    unfold fromCharCode. apply N.mod_small. lia. }
  rewrite E.
  assert (Hall : forallb (fun c => c <=? 255) (map Byte.to_N bytes) = true).
  { apply forallb_forall. intros c Hc. apply in_map_iff in Hc as (b & <- & _).
    apply N.leb_le, Byte.to_N_bounded. }
  by rewrite Hall.
Qed.

(** What [bytesToBase64] writes, [base64ToBytes] reads back. *)
Lemma base64_transport bytes :
  exists base64,
    bytesToBase64 bytes = Some base64 /\ base64ToBytes base64 = Some bytes.
Proof.
  rewrite bytesToBase64_eq. eexists. split; [done|].
  unfold base64ToBytes.
  rewrite atob_base64_encode by apply bytes_bounded. cbn [mbind option_bind].
  f_equal. rewrite map_map. rewrite <- (map_id bytes) at 2.
  apply map_ext. intros b. apply to_uint8_byte.
Qed.

(** X16. [bytesToBase64] never throws, and [base64ToBytes] of its result
    is the byte sequence it was given, whatever its length. *)
Theorem base64_round_trip bytes :
  is_Some (bytesToBase64 bytes) /\
  bytesToBase64 bytes ≫= base64ToBytes = Some bytes.
Proof.
  destruct (base64_transport bytes) as (base64 & -> & Hread).
  split; [eauto|done].
Qed.

Lemma strip_padding_keeps (c : N) data :
  c ≠ 61 -> In c data -> In c (strip_padding data).
Proof.
  intros Hc Hin. unfold strip_padding.
  destruct (rev data) as [|c1 r1] eqn:Hr; [done|].
  destruct (N.eqb_spec c1 61) as [->|]; [|done].
  assert (Hin1 : In c r1).
  { apply in_rev in Hin. rewrite Hr in Hin. by destruct Hin as [?|?]. }
  destruct r1 as [|c2 r2]; [done|].
  destruct (N.eqb_spec c2 61) as [->|]; [|by apply in_rev in Hin1].
  apply in_rev. rewrite rev_involutive. by destruct Hin1 as [?|?].
Qed.

(** X17. [base64ToBytes] throws on every string that holds a character
    which is neither of the base64 alphabet, nor ["="], nor ASCII white
    space. *)
Theorem base64ToBytes_rejects c base64 :
  In c base64 ->
  base64_value c = None -> c ≠ 61 -> is_ascii_whitespace c = false ->
  base64ToBytes base64 = None.
Proof.
  intros Hin Hv Hp Hw. unfold base64ToBytes.
  enough (atob base64 = None) as -> by done.
  unfold atob.
  set (d1 := filter (fun c => is_ascii_whitespace c = false) base64).
  assert (Hin1 : In c d1)
    by (apply list_elem_of_In, list_elem_of_filter;
        split; [done|by apply list_elem_of_In]).
  set (d2 := if (length d1 mod 4 =? 0)%nat then strip_padding d1 else d1).
  assert (Hin2 : In c d2)
    by (unfold d2; destruct (_ =? _)%nat; [by apply strip_padding_keeps|done]).
  destruct (_ =? 1)%nat; [done|].
  enough (mapM base64_value d2 = None) as -> by done.
  apply mapM_None_2, Exists_exists. exists c.
  split; [by apply list_elem_of_In|done].
Qed.

(** ** [hexToBytes] *)

Lemma list_ind2 {A} (P : list A -> Prop) :
  P [] -> (forall a, P [a]) -> (forall a b l, P l -> P (a :: b :: l)) ->
  forall l, P l.
Proof.
  intros H0 H1 H2 l.
  enough (P l /\ (forall a, P (a :: l))) by tauto.
  induction l as [|x l (IH0 & IH1)]; [by auto|].
  split; [apply IH1|]. intros a. by apply H2.
Qed.

(** The loop of [hexToBytes] reads the string pair by pair. *)
Lemma substr_loop {B} (f : jsstring -> B) h :
  map (fun i => f (substr h (i * 2) 2)) (seq 0 (length h / 2))
  = map f (pairs h).
Proof.
  induction h as [|a|a b l IH] using list_ind2; [done|done|].
  cbn [length pairs map].
  replace (S (S (length l)) / 2)%nat with (S (length l / 2))%nat.
  2:{ change (S (S (length l))) with (1 * 2 + length l)%nat.
      by rewrite Nat.div_add_l. }
  cbn [seq map]. f_equal. rewrite <- seq_shift, map_map. exact IH.
Qed.

Lemma hexToBytes_eq hex :
  hexToBytes hex =
  map (fun p => to_uint8 (parseInt16 p))
    (pairs (if startsWith hex (js "0x") then drop 2 hex else hex)).
Proof.
  unfold hexToBytes.
  apply (substr_loop (fun p => to_uint8 (parseInt16 p))).
Qed.

Lemma hex_value_range c v :
  hex_value c = Some v ->
  v < 16 /\ (48 <= c <= 57 \/ 65 <= c <= 70 \/ 97 <= c <= 102).
Proof.
  unfold hex_value. repeat case N.leb_spec; cbn [andb]; intros;
    simplify_eq; lia.
Qed.

Lemma hex_value_digit c v :
  hex_value c = Some v ->
  v < 16 /\ is_white_space c = false /\
  c ≠ 45 /\ c ≠ 43 /\ c ≠ 120 /\ c ≠ 88.
Proof.
  intros Hv. destruct (hex_value_range c v Hv) as [Hlt Hr].
  split; [done|]. split; [|lia].
  unfold is_white_space. cbn [existsb white_space].
  repeat (case N.eqb_spec; [intros; lia|intros _]). done.
Qed.

Lemma parseInt16_pair a b va vb :
  hex_value a = Some va -> hex_value b = Some vb ->
  parseInt16 [a; b] = Some (Z.of_N (16 * va + vb)).
Proof.
  intros Ha Hb.
  destruct (hex_value_digit a va Ha) as (_ & Hw & Hm & Hp & _).
  destruct (hex_value_digit b vb Hb) as (_ & _ & _ & _ & Hx & HX).
  unfold parseInt16. cbn [trim_start]. rewrite Hw.
  destruct (N.eqb_spec a 45); [done|]. destruct (N.eqb_spec a 43); [done|].
  destruct (N.eqb_spec b 120); [done|]. destruct (N.eqb_spec b 88); [done|].
  rewrite andb_false_r. cbn [leading_digits]. rewrite Ha, Hb.
  unfold digits_value. cbn [fold_left]. f_equal. lia.
Qed.

Lemma hex_value_hex_digit upper v :
  v < 16 -> hex_value (hex_digit upper v) = Some v.
Proof.
  intros Hv.
  pose proof (below_by_cases 16
    (fun v => bool_decide (hex_value (hex_digit upper v) = Some v))) as H.
  cbv beta in H. rewrite <- bool_decide_eq_true. apply H; [|done].
  by destruct upper; vm_compute.
Qed.

Lemma pairs_bytesToHex upper bs :
  pairs (bytesToHex upper bs)
  = map (fun b => [hex_digit upper (Byte.to_N b / 16);
                   hex_digit upper (Byte.to_N b mod 16)]) bs.
Proof.
  induction bs as [|b bs IH]; [done|].
  unfold bytesToHex in *. cbn [map concat app pairs]. by rewrite IH.
Qed.

Lemma byte_digits b :
  Byte.to_N b / 16 < 16 /\ Byte.to_N b mod 16 < 16 /\
  16 * (Byte.to_N b / 16) + Byte.to_N b mod 16 = Byte.to_N b.
Proof.
  pose proof (Byte.to_N_bounded b). pose proof (N.div_mod (Byte.to_N b) 16).
  pose proof (N.mod_upper_bound (Byte.to_N b) 16).
  repeat split; [apply N.Div0.div_lt_upper_bound|..]; lia.
Qed.

Lemma read_bytesToHex upper bs :
  map (fun p => to_uint8 (parseInt16 p)) (pairs (bytesToHex upper bs)) = bs.
Proof.
  rewrite pairs_bytesToHex, map_map. rewrite <- (map_id bs) at 2.
  apply map_ext. intros b. destruct (byte_digits b) as (Hh & Hl & E).
  rewrite (parseInt16_pair _ _ _ _ (hex_value_hex_digit upper _ Hh)
             (hex_value_hex_digit upper _ Hl)).
  rewrite E. apply to_uint8_byte.
Qed.

Lemma bytesToHex_no_prefix upper bs c0 c1 rest :
  bytesToHex upper bs = c0 :: c1 :: rest -> c1 ≠ 120 /\ c1 ≠ 88.
Proof.
  destruct bs as [|b bs]; [done|]. unfold bytesToHex. cbn [map concat app].
  intros [= _ <- _]. destruct (byte_digits b) as (_ & Hl & _).
  by destruct (hex_value_digit _ _ (hex_value_hex_digit upper _ Hl))
    as (_ & _ & _ & _ & ? & ?).
Qed.

Lemma startsWith_bytesToHex upper bs :
  startsWith (bytesToHex upper bs) (js "0x") = false.
Proof.
  unfold startsWith. apply bool_decide_eq_false_2.
  change (js "0x") with [48; 120].
  destruct (bytesToHex upper bs) as [|c0 [|c1 rest]] eqn:E; [done|done|].
  destruct (bytesToHex_no_prefix _ _ _ _ _ E) as [Hx _].
  cbn [length take]. rewrite take_0. by intros [= _ ->].
Qed.

Lemma hexToBytes_prefixed upper bs :
  hexToBytes (js "0x" ++ bytesToHex upper bs) = bs.
Proof.
  rewrite hexToBytes_eq.
  change (startsWith (js "0x" ++ bytesToHex upper bs) (js "0x")) with true.
  change (drop 2 (js "0x" ++ bytesToHex upper bs)) with (bytesToHex upper bs).
  apply read_bytesToHex.
Qed.

(** X18. [hexToBytes] reads back the bytes written as two hexadecimal
    digits each, in lower or in upper case, with or without a ["0x"] in
    front. The prefix is only known in lower case: after ["0X"] the
    result starts with a byte 0 that was not written. *)
Theorem hexToBytes_reads_hex upper bs :
  hexToBytes (bytesToHex upper bs) = bs /\
  hexToBytes (js "0x" ++ bytesToHex upper bs) = bs /\
  hexToBytes (js "0X" ++ bytesToHex upper bs) = x00 :: bs.
Proof.
  split; [|split; [apply hexToBytes_prefixed|]].
  - rewrite hexToBytes_eq, startsWith_bytesToHex. apply read_bytesToHex.
  - rewrite hexToBytes_eq.
    change (startsWith (js "0X" ++ bytesToHex upper bs) (js "0x")) with false.
    change (js "0X" ++ bytesToHex upper bs)
      with (48 :: 88 :: bytesToHex upper bs).
    cbn [pairs map]. f_equal. apply read_bytesToHex.
Qed.

(** ** The text codec *)

Ltac nlia := zify; Z.to_euclidean_division_equations; lia.

(** One step of the decoder on a byte it is given in closed form. *)
Ltac decode_step :=
  cbn [andb negb app utf8_decode utf8_step utf8_start bytes_needed bytes_seen
       lower_boundary upper_boundary code_point N.eqb Pos.eqb N.add Pos.add
       Pos.succ];
  repeat match goal with
  | |- context [?a + 1 =? ?b] =>
      let v := eval vm_compute in (a + 1 =? b) in
      match v with
      | true => change (a + 1 =? b) with true
      | false => change (a + 1 =? b) with false
      end
  end;
  cbn [app utf8_decode utf8_step bytes_needed bytes_seen lower_boundary
       upper_boundary code_point N.eqb Pos.eqb negb andb].

(** Settles every test of the decoder from the range of the code point. *)
Ltac decode_tests :=
  repeat (decode_step;
          match goal with
          | |- context [?a =? ?b] => destruct (N.eqb_spec a b); try nlia
          | |- context [?a <=? ?b] => destruct (N.leb_spec a b); try nlia
          end);
  decode_step.

Lemma utf8_decode_encode cp rest :
  is_scalar cp ->
  utf8_decode utf8_start (utf8_encode cp ++ rest)
  = cp :: utf8_decode utf8_start rest.
Proof.
  intros [Hlt Hs]. unfold utf8_encode.
  destruct (N.ltb_spec cp 0x80); [|destruct (N.ltb_spec cp 0x800);
    [|destruct (N.ltb_spec cp 0x10000)]];
  cbn [app utf8_decode utf8_step utf8_start bytes_needed N.eqb];
  unfold utf8_lead at 1; decode_tests; f_equal; nlia.
Qed.

Lemma utf8_decode_encode_all cps :
  Forall is_scalar cps ->
  utf8_decode utf8_start (concat (map utf8_encode cps)) = cps.
Proof.
  induction 1 as [|cp cps Hcp _ IH]; [done|].
  cbn [map concat]. rewrite utf8_decode_encode by done. by f_equal.
Qed.

Lemma utf8_encode_bytes cp :
  is_scalar cp -> Forall (fun b => b < 256) (utf8_encode cp).
Proof.
  intros [Hlt Hs]. unfold utf8_encode.
  repeat case N.ltb_spec; intros; repeat constructor; nlia.
Qed.

Lemma is_lead_surrogate_spec c :
  is_lead_surrogate c = true <-> 0xD800 <= c <= 0xDBFF.
Proof.
  unfold is_lead_surrogate. by rewrite andb_true_iff, !N.leb_le.
Qed.

Lemma is_trail_surrogate_spec c :
  is_trail_surrogate c = true <-> 0xDC00 <= c <= 0xDFFF.
Proof.
  unfold is_trail_surrogate. by rewrite andb_true_iff, !N.leb_le.
Qed.

(** Facts about the surrogate tests at hand, as inequalities. *)
Ltac surrogates :=
  repeat match goal with
  | H : is_lead_surrogate _ = true |- _ => apply is_lead_surrogate_spec in H
  | H : is_trail_surrogate _ = true |- _ => apply is_trail_surrogate_spec in H
  | H : is_lead_surrogate _ = false |- _ =>
      apply not_true_iff_false in H; rewrite is_lead_surrogate_spec in H
  | H : is_trail_surrogate _ = false |- _ =>
      apply not_true_iff_false in H; rewrite is_trail_surrogate_spec in H
  | H : (_ <? _) = true |- _ => apply N.ltb_lt in H
  end.

(** Induction over a string one or two code units at a time. *)
Lemma string_ind12 (P : jsstring -> Prop) :
  P [] ->
  (forall c rest,
     P rest -> (forall d rest', rest = d :: rest' -> P rest') ->
     P (c :: rest)) ->
  forall s, P s.
Proof.
  intros Hnil Hstep s.
  enough (P s /\ forall c, P (c :: s)) by tauto.
  induction s as [|x l [IH0 IH1]].
  - split; [done|]. intros c. by apply Hstep.
  - split; [apply IH1|]. intros c. apply Hstep; [apply IH1|].
    by intros d rest' [= -> ->].
Qed.

Lemma scalar_values_scalar s :
  code_units s = true -> Forall is_scalar (scalar_values s).
Proof.
  induction s as [|c rest IH IH'] using string_ind12; [constructor|].
  intros Hu. apply andb_prop in Hu as [Hc Hu].
  assert (Hfffd : is_scalar 0xFFFD) by (unfold is_scalar; lia).
  cbn [scalar_values].
  destruct (is_lead_surrogate c) eqn:Hl.
  - destruct rest as [|d rest']; [by constructor|].
    destruct (is_trail_surrogate d) eqn:Ht.
    + apply andb_prop in Hu as [Hd Hu]. constructor; [|by eapply IH'].
      surrogates. unfold is_scalar. lia.
    + constructor; [done|by apply IH].
  - destruct (is_trail_surrogate c) eqn:Ht; (constructor; [|by apply IH]);
      [done|]. surrogates. unfold is_scalar. lia.
Qed.

Lemma scalar_values_well_formed s :
  code_units s = true -> isWellFormed s = true ->
  concat (map utf16_encode (scalar_values s)) = s /\
  starts_with_bom (scalar_values s) = starts_with_bom s.
Proof.
  induction s as [|c rest IH IH'] using string_ind12; [done|].
  intros Hu Hw. apply andb_prop in Hu as [Hc Hu].
  cbn [scalar_values isWellFormed] in *.
  destruct (is_lead_surrogate c) eqn:Hl.
  - destruct rest as [|d rest']; [done|].
    apply andb_prop in Hw as [Ht Hw]. rewrite Ht.
    apply andb_prop in Hu as [Hd Hu].
    destruct (IH' d rest' eq_refl Hu Hw) as [IHs _].
    cbn [map concat starts_with_bom]. rewrite IHs. surrogates.
    unfold utf16_encode.
    destruct (N.ltb_spec (0x10000 + (c - 0xD800) * 0x400 + (d - 0xDC00))
                0x10000); [lia|].
    split.
    + cbn [app]. f_equal; [nlia|]. f_equal. nlia.
    + destruct (N.eqb_spec (0x10000 + (c - 0xD800) * 0x400 + (d - 0xDC00))
                  0xFEFF); [lia|].
      destruct (N.eqb_spec c 0xFEFF); [lia|done].
  - apply andb_prop in Hw as [Ht Hw]. apply negb_true_iff in Ht.
    rewrite Ht. destruct (IH Hu Hw) as [IHs _].
    cbn [map concat starts_with_bom]. rewrite IHs. surrogates.
    unfold utf16_encode. by destruct (N.ltb_spec c 0x10000); [|lia].
Qed.

Lemma to_N_to_byte n : n < 256 -> Byte.to_N (to_byte n) = n.
Proof.
  intros Hn. unfold to_byte.
  destruct (Byte.of_N n) as [b|] eqn:Hb; [by apply Byte.to_of_N|].
  apply Byte.of_N_None_iff in Hb. lia.
Qed.

Lemma TextEncoder_encode_bytes s :
  code_units s = true ->
  map Byte.to_N (TextEncoder_encode s)
  = concat (map utf8_encode (scalar_values s)).
Proof.
  intros Hu. unfold TextEncoder_encode. rewrite map_map.
  rewrite <- (map_id (concat _)) at 2. apply map_ext_in.
  intros b Hb. apply to_N_to_byte.
  apply in_concat in Hb as (bs & Hbs & Hb).
  apply in_map_iff in Hbs as (cp & <- & Hcp).
  pose proof (scalar_values_scalar s Hu) as Hs.
  rewrite List.Forall_forall in Hs.
  pose proof (utf8_encode_bytes cp (Hs cp Hcp)) as Hbytes.
  rewrite List.Forall_forall in Hbytes. by apply Hbytes.
Qed.

(** What comes back from the text codec: the scalar values of the
    string, without a byte order mark in front. *)
Lemma TextDecoder_decode_encode s :
  code_units s = true ->
  TextDecoder_decode (TextEncoder_encode s)
  = concat (map utf16_encode (strip_bom (scalar_values s))).
Proof.
  intros Hu. unfold TextDecoder_decode.
  rewrite TextEncoder_encode_bytes by done.
  by rewrite utf8_decode_encode_all by by apply scalar_values_scalar.
Qed.

Lemma strip_bom_without cps : starts_with_bom cps = false -> strip_bom cps = cps.
Proof. destruct cps as [|c rest]; [done|]. cbn. by intros ->. Qed.

Lemma text_round_trip s :
  code_units s = true -> isWellFormed s = true -> starts_with_bom s = false ->
  TextDecoder_decode (TextEncoder_encode s) = s.
Proof.
  intros Hu Hw Hb. rewrite TextDecoder_decode_encode by done.
  destruct (scalar_values_well_formed s Hu Hw) as [Hs Hbom].
  rewrite strip_bom_without by congruence. done.
Qed.

Lemma text_bom_dropped s :
  code_units s = true -> isWellFormed s = true ->
  TextDecoder_decode (TextEncoder_encode (0xFEFF :: s)) = s.
Proof.
  intros Hu Hw. rewrite TextDecoder_decode_encode by done.
  by destruct (scalar_values_well_formed s Hu Hw) as [Hs _].
Qed.

(** ** The key string of the callers *)

Lemma hex_digits_0 m : hex_digits m 0 = replicate m 0.
Proof.
  induction m as [|m IH]; [done|]. cbn [hex_digits].
  change (0 / 16) with 0. change (0 mod 16) with 0. rewrite IH.
  change [0] with (replicate 1 0). rewrite <- replicate_add.
  by rewrite Nat.add_1_r.
Qed.

Lemma low_digits_0 fuel : low_digits fuel 0 = [].
Proof. by destruct fuel. Qed.

Lemma low_digits_pad m : forall fuel n,
  n < 16 ^ N.of_nat m -> n < 2 ^ N.of_nat fuel ->
  (length (low_digits fuel n) <= m)%nat /\
  replicate (m - length (low_digits fuel n)) 0 ++ rev (low_digits fuel n)
  = hex_digits m n.
Proof.
  induction m as [|m IH]; intros fuel n Hm Hf.
  - assert (n = 0) as -> by (cbn in Hm; lia). by rewrite low_digits_0.
  - destruct (N.eq_dec n 0) as [->|Hn].
    { rewrite low_digits_0, hex_digits_0. cbn [length rev].
      rewrite app_nil_r, Nat.sub_0_r. split; [lia|done]. }
    destruct fuel as [|fuel]; [cbn in Hf; lia|].
    cbn [low_digits]. destruct (N.eqb_spec n 0); [done|].
    assert (H16 : n / 16 < 16 ^ N.of_nat m).
    { apply N.Div0.div_lt_upper_bound.
      rewrite Nat2N.inj_succ, N.pow_succ_r' in Hm. lia. }
    assert (H2 : n / 16 < 2 ^ N.of_nat fuel).
    { rewrite Nat2N.inj_succ, N.pow_succ_r' in Hf.
      pose proof (N.Div0.div_le_mono n (2 * 2 ^ N.of_nat fuel - 1) 16).
      assert (n / 2 < 2 ^ N.of_nat fuel)
        by (apply N.Div0.div_lt_upper_bound; lia).
      assert (n / 16 <= n / 2); [|lia].
      apply N.div_le_compat_l. lia. }
    destruct (IH fuel (n / 16) H16 H2) as [Hlen Hpad].
    cbn [length rev hex_digits]. split; [lia|].
    rewrite app_assoc. f_equal.
    replace (S m - S (length (low_digits fuel (n / 16))))%nat
      with (m - length (low_digits fuel (n / 16)))%nat by lia.
    done.
Qed.

Lemma size_bound n : n < 2 ^ N.of_nat (N.to_nat (N.size n)).
Proof. rewrite N2Nat.id. apply N.size_gt. Qed.

Lemma keyHex_digits key :
  key < 16 ^ 64 ->
  keyHex key = js "0x" ++ map hex_char (hex_digits 64 key).
Proof.
  intros Hk. unfold keyHex. f_equal. unfold padStart, toString16.
  destruct (N.eqb_spec key 0) as [->|Hn].
  { by vm_compute. }
  destruct (low_digits_pad 64 _ key Hk (size_bound key)) as [Hlen Hpad].
  rewrite <- Hpad, map_app, length_map, length_rev.
  f_equal. generalize (64 - length (low_digits (N.to_nat (N.size key)) key))%nat.
  intros k. induction k as [|k IHk]; [done|]. cbn. by rewrite <- IHk.
Qed.

Lemma be_bytes_length n key : length (be_bytes n key) = n.
Proof.
  revert key. induction n as [|n IH]; intros key; [done|].
  cbn [be_bytes]. rewrite length_app, IH. cbn. lia.
Qed.

Lemma hex_digits_bytes n key :
  map hex_char (hex_digits (2 * n) key)
  = bytesToHex false (map to_byte (be_bytes n key)).
Proof.
  revert key. induction n as [|n IH]; intros key; [done|].
  replace (2 * S n)%nat with (S (S (2 * n))) by lia.
  cbn [hex_digits be_bytes]. rewrite !map_app.
  unfold bytesToHex in *. rewrite map_app, concat_app. cbn [map concat].
  rewrite app_nil_r, <- app_assoc.
  rewrite N.Div0.div_div. change (16 * 16) with 256.
  rewrite <- IH. f_equal.
  assert (Hb : key mod 256 < 256) by (apply N.mod_upper_bound; lia).
  rewrite to_N_to_byte by done.
  change (hex_digit false) with hex_char. cbn [app].
  f_equal; [|f_equal]; f_equal; nlia.
Qed.

(** X19. The key string the callers build from a key below 2^256 is
    read by [hexToBytes] as the 32 bytes of the key, highest first: it
    is a key of 256 bits for [importAesKey]. *)
Theorem keyHex_bytes key :
  key < 2 ^ 256 ->
  hexToBytes (keyHex key) = map to_byte (be_bytes 32 key) /\
  length (hexToBytes (keyHex key)) = 32%nat.
Proof.
  intros Hk. change (2 ^ 256) with (16 ^ 64) in Hk.
  rewrite keyHex_digits by done.
  change 64%nat with (2 * 32)%nat. rewrite (hex_digits_bytes 32 key).
  rewrite hexToBytes_prefixed.
  split; [done|]. by rewrite length_map, be_bytes_length.
Qed.

(** ** The envelope *)

Section EnvelopeFacts.
Context `{WebCrypto}.

Lemma importAesKey_eq keyHex :
  importAesKey keyHex
  = if bool_decide (length (hexToBytes keyHex) ∈ [16; 24; 32]%nat)
    then inr (hexToBytes keyHex) else inl DataError.
Proof. done. Qed.

Lemma importAesKey_256 keyHex :
  length (hexToBytes keyHex) = 32%nat ->
  importAesKey keyHex = inr (hexToBytes keyHex).
Proof.
  intros Hl. rewrite importAesKey_eq, Hl. done.
Qed.

(** Sealing under an importable key, then opening: the envelope carries
    the IV and the ciphertext through base64 unchanged, and the outcome is
    the one of the cipher under the opening key. *)
Lemma seal_then_open_eq content keyHex key :
  importAesKey keyHex = inr key ->
  exists envelope,
    encryptContent content keyHex = inr envelope /\
    forall openKeyHex,
      decryptContent (encryptedContent envelope) (iv envelope) openKeyHex
      = (cryptoKey ← importAesKey openKeyHex;
         match aes_gcm_decrypt cryptoKey generateIv
                 (aes_gcm_encrypt key generateIv (TextEncoder_encode content))
         with
         | Some data => inr (TextDecoder_decode data)
         | None => inl OperationError
         end).
Proof.
  intros Hk. unfold encryptContent, decryptContent. rewrite Hk.
  cbn [mbind Promise_bind].
  destruct (base64_transport generateIv) as (iv64 & -> & Hiv).
  destruct (base64_transport
              (aes_gcm_encrypt key generateIv (TextEncoder_encode content)))
    as (ct64 & -> & Hct).
  cbn [or_throw mret Promise_ret]. eexists. split; [done|].
  intros openKeyHex. cbn [encryptedContent iv]. rewrite Hiv, Hct.
  destruct (importAesKey openKeyHex) as [e|k]; [done|].
  cbn [or_throw mbind Promise_bind mret Promise_ret].
  by destruct (aes_gcm_decrypt k _ _).
Qed.


(** X20. A leading U+FEFF does not survive, on any platform: the
    envelope of a well-formed plaintext with a byte order mark in front
    opens, under the key it was sealed with, to the plaintext without
    the mark. *)
Theorem envelope_drops_byte_order_mark content keyHex :
  code_units content = true -> isWellFormed content = true ->
  length (hexToBytes keyHex) = 32%nat ->
  seal_then_open (0xFEFF :: content) keyHex keyHex = inr content.
Proof.
  intros Hu Hw Hk. unfold seal_then_open.
  destruct (seal_then_open_eq (0xFEFF :: content) keyHex _
              (importAesKey_256 _ Hk)) as (envelope & -> & Hopen).
  cbn [mbind Promise_bind]. rewrite Hopen, (importAesKey_256 _ Hk).
  cbn [mbind Promise_bind]. rewrite aes_gcm_decrypt_encrypt. f_equal.
  by apply text_bom_dropped.
Qed.

(** X21. A key string that does not give 16, 24 or 32 bytes is refused
    with a [DataError] by [encryptContent] and by [decryptContent],
    whatever the other arguments are. *)
Theorem key_of_wrong_size_is_refused content encrypted iv64 keyHex :
  length (hexToBytes keyHex) ∉ [16; 24; 32]%nat ->
  encryptContent content keyHex = inl DataError /\
  decryptContent encrypted iv64 keyHex = inl DataError.
Proof.
  intros Hl. unfold encryptContent, decryptContent.
  rewrite importAesKey_eq. by rewrite bool_decide_eq_false_2.
Qed.

End EnvelopeFacts.

(** ** On the test platform *)

(** The cipher of the test platform rejects under every other key of
    the same size. *)
Lemma test_crypto_authenticating : authenticating.
Proof.
  intros key key' iv data Hl Hne. cbn. unfold toy_decrypt, toy_encrypt.
  case_bool_decide as Heq; [|done]. exfalso. apply Hne.
  rewrite Hl, app_assoc, <- length_app, take_app_length in Heq.
  by apply app_inv_tail in Heq.
Qed.



(** Opening under another key on the test platform. *)
Example wrong_key_is_rejected :
  seal_then_open hello test_key other_key = inl OperationError.
Proof. vm_compute. reflexivity. Qed.

Lemma base64ToBytes_rejects_witness :
  In 42 (js "AP*Q") /\ base64ToBytes (js "AP*Q") = None.
Proof.
  assert (Hin : In 42 (js "AP*Q")) by (vm_compute; tauto).
  assert (Hv : base64_value 42 = None) by reflexivity.
  assert (Hp : 42 ≠ 61) by lia.
  assert (Hw : is_ascii_whitespace 42 = false) by reflexivity.
  split; [exact Hin|].
  exact (base64ToBytes_rejects 42 (js "AP*Q") Hin Hv Hp Hw).
Defined.

Lemma keyHex_bytes_witness :
  258 < 2 ^ 256 /\
  hexToBytes (keyHex 258) = replicate 30 x00 ++ [x01; x02].
Proof.
  assert (Hk : 258 < 2 ^ 256) by (vm_compute; reflexivity).
  split; [exact Hk|].
  exact (proj1 (keyHex_bytes 258 Hk)).
Defined.

Lemma envelope_drops_byte_order_mark_witness :
  code_units hello = true /\ isWellFormed hello = true /\
  length (hexToBytes test_key) = 32%nat /\
  seal_then_open (0xFEFF :: hello) test_key test_key = inr hello.
Proof.
  assert (Hu : code_units hello = true) by reflexivity.
  assert (Hw : isWellFormed hello = true) by reflexivity.
  assert (Hk : length (hexToBytes test_key) = 32%nat)
    by (vm_compute; reflexivity).
  do 3 (split; [assumption|]).
  exact (envelope_drops_byte_order_mark hello test_key Hu Hw Hk).
Defined.

Lemma key_of_wrong_size_is_refused_witness :
  (length (hexToBytes (js "0xabcd")) ∉ [16; 24; 32]%nat) /\
  encryptContent hello (js "0xabcd") = inl DataError.
Proof.
  assert (Hl : length (hexToBytes (js "0xabcd")) ∉ [16; 24; 32]%nat)
    by (apply (bool_decide_eq_false_1
                 (length (hexToBytes (js "0xabcd")) ∈ [16; 24; 32]%nat));
        vm_compute; reflexivity).
  split; [exact Hl|].
  exact (proj1 (key_of_wrong_size_is_refused hello [] [] (js "0xabcd") Hl)).
Defined.

End CryptoFacts.
